(** * RiskModeling: the VaR & CVaR notebook

    A shallow embedding of the notebook [VaR&CVaR.ipynb]: the estimators
    [calculate_var] and [calculate_cvar], Kupiec's proportion-of-failures
    backtest [kupiec_test] and the simulator [monte_carlo_var].

    Arithmetic.  A Python/NumPy [float] is modelled by the type
    [Float.float]: a finite value is an exact real number (no rounding, no
    overflow, no signed zero), and the three special values [inf], [-inf]
    and [nan] arise where IEEE-754 and NumPy produce them (the logarithm of
    a non-positive number, the mean of an empty array, an undefined
    product or difference of infinities).  A return series is a list of
    finite reals: the notebook drops missing values before any estimator
    sees the series. *)

From Stdlib Require Import String.
From Stdlib Require Import Reals Lra Lia ZArith Bool List.
From Stdlib Require Import Sorted Permutation.
Import ListNotations.
Local Open Scope R_scope.

(** ** Decidable comparisons on the reals *)

Definition Rltb (x y : R) : bool := if Rlt_dec x y then true else false.
Definition Rleb (x y : R) : bool := if Rle_dec x y then true else false.
Definition Reqb (x y : R) : bool := if Req_dec_T x y then true else false.

(** ** Python floats *)

Module Float.

Inductive float : Type :=
| Fin (x : R)
| PInf
| NInf
| NaN.

Definition is_finite (a : float) : bool :=
  match a with Fin _ => true | _ => false end.

(** The infinity carrying the sign of [x]; [nan] when [x] is zero
    (the value of [0 * inf]). *)
Definition inf_signed (x : R) : float :=
  if Rltb 0 x then PInf else if Rltb x 0 then NInf else NaN.

Definition fopp (a : float) : float :=
  match a with
  | Fin x => Fin (- x)
  | PInf => NInf
  | NInf => PInf
  | NaN => NaN
  end.

Definition fadd (a b : float) : float :=
  match a, b with
  | NaN, _ | _, NaN => NaN
  | Fin x, Fin y => Fin (x + y)
  | PInf, NInf | NInf, PInf => NaN
  | PInf, _ | _, PInf => PInf
  | NInf, _ | _, NInf => NInf
  end.

Definition fsub (a b : float) : float := fadd a (fopp b).

Definition fmul (a b : float) : float :=
  match a, b with
  | NaN, _ | _, NaN => NaN
  | Fin x, Fin y => Fin (x * y)
  | Fin x, PInf | PInf, Fin x => inf_signed x
  | Fin x, NInf | NInf, Fin x => inf_signed (- x)
  | PInf, PInf | NInf, NInf => PInf
  | PInf, NInf | NInf, PInf => NInf
  end.

(** NumPy's true division of floats: [x / 0] is an infinity with the sign of
    [x], and [0 / 0] is [nan]. *)
Definition fdiv (a b : float) : float :=
  match a, b with
  | NaN, _ | _, NaN => NaN
  | Fin x, Fin y => if Reqb y 0 then inf_signed x else Fin (x / y)
  | Fin _, (PInf | NInf) => Fin 0
  | (PInf | NInf), (PInf | NInf) => NaN
  | PInf, Fin y => if Rltb y 0 then NInf else PInf
  | NInf, Fin y => if Rltb y 0 then PInf else NInf
  end.

(** [a ** n] for a float base and a non-negative integer exponent:
    anything to the power [0] is [1.0], also [nan] and [0.0]. *)
Definition fpow (a : float) (n : nat) : float :=
  match n with
  | O => Fin 1
  | S _ =>
      match a with
      | Fin x => Fin (x ^ n)
      | PInf => PInf
      | NInf => if Nat.even n then PInf else NInf
      | NaN => NaN
      end
  end.

(** [np.log]: [-inf] at zero and [nan] below it (NumPy warns and goes on). *)
Definition flog (a : float) : float :=
  match a with
  | Fin x => if Rltb 0 x then Fin (ln x) else if Reqb x 0 then NInf else NaN
  | PInf => PInf
  | NInf => NaN
  | NaN => NaN
  end.

(** [np.exp]. *)
Definition fexp (a : float) : float :=
  match a with
  | Fin x => Fin (exp x)
  | PInf => PInf
  | NInf => Fin 0
  | NaN => NaN
  end.

(** Comparisons: every comparison with [nan] is [False]. *)
Definition flt (a b : float) : bool :=
  match a, b with
  | NaN, _ | _, NaN => false
  | Fin x, Fin y => Rltb x y
  | _, NInf => false
  | NInf, _ => true
  | PInf, _ => false
  | _, PInf => true
  end.

Definition fle (a b : float) : bool :=
  match a, b with
  | NaN, _ | _, NaN => false
  | Fin x, Fin y => Rleb x y
  | NInf, _ => true
  | _, PInf => true
  | _, NInf => false
  | PInf, _ => false
  end.

(** [a == b]; in particular [nan == nan] is [False]. *)
Definition feq (a b : float) : bool :=
  match a, b with
  | Fin x, Fin y => Reqb x y
  | PInf, PInf | NInf, NInf => true
  | _, _ => false
  end.

(** The order [np.sort] uses: the usual one, with [nan] after everything. *)
Definition sort_le (a b : float) : bool :=
  match a, b with
  | _, NaN => true
  | NaN, _ => false
  | _, _ => fle a b
  end.

End Float.
Import Float.

(** ** Exceptions and the record of library calls *)

Inductive exn : Type :=
| ValueError (msg : string)
| IndexError (msg : string).

Inductive result (A : Type) : Type :=
| Ok (a : A)
| Raise (e : exn).
Arguments Ok {A} a.
Arguments Raise {A} e.

(** The numerical routines of NumPy and SciPy that [calculate_var] and
    [calculate_cvar] hand their work to. *)
Inductive libcall : Type :=
| np_percentile_call
| np_mean_call
| np_std_call
| norm_ppf_call
| t_fit_call
| t_ppf_call.

(** A computation that may raise, together with the library calls it made
    up to its return or its exception, in order. *)
Definition M (A : Type) : Type := (list libcall * result A)%type.

Definition ret {A} (a : A) : M A := ([], Ok a).
Definition raise {A} (e : exn) : M A := ([], Raise e).
Definition bind {A B} (m : M A) (k : A -> M B) : M B :=
  match m with
  | (t, Ok a) => let (t', r) := k a in (t ++ t', r)
  | (t, Raise e) => (t, Raise e)
  end.
(** Calling the library routine [c], whose outcome is [r]. *)
Definition call {A} (c : libcall) (r : result A) : M A := ([c], r).

Definition trace {A} (m : M A) : list libcall := fst m.
Definition outcome {A} (m : M A) : result A := snd m.

Declare Scope py_scope.
Delimit Scope py_scope with py.
Notation "x <- m ;; k" := (bind m (fun x => k))
  (at level 61, m at next level, right associativity) : py_scope.

Local Open Scope py_scope.

(** ** NumPy *)

Section Sorting.
Context {A : Type} (leb : A -> A -> bool).

Fixpoint insert (x : A) (l : list A) : list A :=
  match l with
  | [] => [x]
  | y :: l' => if leb x y then x :: l else y :: insert x l'
  end.

Fixpoint sort_by (l : list A) : list A :=
  match l with
  | [] => []
  | x :: l' => insert x (sort_by l')
  end.
End Sorting.

(** [np.sort] of an array of finite values, and of an array of floats. *)
Definition np_sort (a : list R) : list R := sort_by Rleb a.
Definition np_sort_floats (a : list float) : list float := sort_by sort_le a.

Definition Rsum (a : list R) : R := fold_right Rplus 0 a.

(** [np.mean]: [nan] on an empty array. *)
Definition np_mean (a : list R) : float :=
  match a with
  | [] => NaN
  | _ => Fin (Rsum a / INR (length a))
  end.

(** [np.std] with its default [ddof=0]: the root of the mean squared
    deviation from the mean, dividing by the number of observations. *)
Definition np_std (a : list R) : float :=
  match np_mean a with
  | Fin m => Fin (sqrt (Rsum (map (fun x => (x - m) * (x - m)) a) / INR (length a)))
  | _ => NaN
  end.

(** NumPy's [_lerp]: the two forms agree in exact arithmetic. *)
Definition lerp (a b t : R) : R :=
  if Rleb (1 / 2) t then b - (b - a) * (1 - t) else a + (b - a) * t.

(** ** The numerical libraries

    What the notebook takes from SciPy (and the one answer of NumPy that its
    releases do not agree on) is a parameter of the development. *)
Class Library : Type := {
  (** [np.percentile] of an empty array: [nan] in some releases of NumPy,
      an exception in others. *)
  percentile_of_empty : result float;
  (** [norm._ppf]: the quantile function of the standard normal law. *)
  norm_std_ppf : R -> R;
  (** [t._ppf(q, df)]: the quantile function of the standard Student-t law
      with [df] degrees of freedom. *)
  t_std_ppf : float -> R -> R;
  (** [t.fit]: the fitted [(df, loc, scale)], or the exception it raises. *)
  t_fit : list R -> result (float * float * float)
}.

Section Notebook.
Context {lib : Library}.

(** [np.percentile(a, q)] with the default method, ['linear']: the
    percentile is turned into a quantile and checked, the array is sorted,
    and the value at the virtual index [(n - 1) * quantile] is interpolated
    between its two neighbours. *)
Definition np_percentile (a : list R) (q : R) : result float :=
  let quantile := q / 100 in
  if negb (Rleb 0 quantile && Rleb quantile 1) then
    Raise (ValueError "Percentiles must be in the range [0, 100]")
  else
    match a with
    | [] => percentile_of_empty
    | _ =>
        let arr := np_sort a in
        let n := length arr in
        let virtual_index := (INR n - 1) * quantile in
        let above_bounds := Rleb (INR n - 1) virtual_index in
        let previous_index :=
          if above_bounds then (n - 1)%nat else Z.to_nat (Zfloor virtual_index) in
        let next_index :=
          if above_bounds then (n - 1)%nat else (Z.to_nat (Zfloor virtual_index) + 1)%nat in
        let gamma := virtual_index - IZR (Zfloor virtual_index) in
        Ok (Fin (lerp (nth previous_index arr 0) (nth next_index arr 0) gamma))
    end.

(** ** SciPy

    [rv_continuous.ppf(q, loc, scale)] of a law supported on the whole line:
    [nan] unless the shape parameters are valid, [scale > 0] and [loc] is not
    [nan]; then [_ppf(q) * scale + loc] inside [(0,1)], the ends of the
    support at [0] and [1], and [nan] elsewhere. *)
Definition rv_ppf (argcheck : bool) (std_ppf : R -> R) (q : R) (loc scale : float) : float :=
  let cond0 := argcheck && flt (Fin 0) scale && feq loc loc in
  if negb cond0 then NaN
  else if Rltb 0 q && Rltb q 1 then fadd (fmul (Fin (std_ppf q)) scale) loc
  else if Reqb q 0 then fadd (fmul NInf scale) loc
  else if Reqb q 1 then fadd (fmul PInf scale) loc
  else NaN.

Definition norm_ppf (q : R) (loc scale : float) : float :=
  rv_ppf true norm_std_ppf q loc scale.

Definition t_ppf (q : R) (df loc scale : float) : float :=
  rv_ppf (flt (Fin 0) df) (t_std_ppf df) q loc scale.

(** ** The notebook *)

Definition portfolio_value : R := 1000000.

Definition calculate_var (returns : list R) (confidence_level : R) (method : string)
  : M float :=
  if (method =? "historical")%string then
    call np_percentile_call (np_percentile returns (100 * (1 - confidence_level)))
  else if (method =? "normal")%string then
    mu <- call np_mean_call (Ok (np_mean returns)) ;;
    sigma <- call np_std_call (Ok (np_std returns)) ;;
    call norm_ppf_call (Ok (norm_ppf (1 - confidence_level) mu sigma))
  else if (method =? "t-dist")%string then
    params <- call t_fit_call (t_fit returns) ;;
    let '(df, loc, scale) := params in
    call t_ppf_call (Ok (t_ppf (1 - confidence_level) df loc scale))
  else
    raise (ValueError "Invalid method. Choose: historical/normal/t-dist").

Definition calculate_cvar (returns : list R) (confidence_level : R) : M float :=
  var <- calculate_var returns confidence_level "historical" ;;
  let tail_losses := filter (fun r => fle (Fin r) var) returns in
  call np_mean_call (Ok (np_mean tail_losses)).

End Notebook.

(** [failures.sum()] and [failures.mean()] of a boolean series. *)
Definition bool_sum (l : list bool) : nat := length (filter (fun b => b) l).
Definition bool_mean (l : list bool) : float :=
  match l with
  | [] => NaN
  | _ => Fin (INR (bool_sum l) / INR (length l))
  end.

Definition likelihood_ratio (returns : list R) (var : float) (confidence_level : R)
  : float :=
  let failures := map (fun r => flt (Fin r) var) returns in
  let p_actual := bool_mean failures in
  let p_expected := Fin (1 - confidence_level) in
  fmul (Fin (-2))
    (fsub
       (flog (fmul (fpow (fsub (Fin 1) p_actual) (length returns - bool_sum failures))
                   (fpow p_actual (bool_sum failures))))
       (flog (fmul (fpow (fsub (Fin 1) p_expected) (length returns - bool_sum failures))
                   (fpow p_expected (bool_sum failures))))).

Definition kupiec_test (returns : list R) (var : float) (confidence_level : R) : bool :=
  flt (likelihood_ratio returns var confidence_level) (Fin 5.024).

(** [a.prod(axis=0)] of an array of [rows] with [n] columns. *)
Definition prod_axis0 (n : nat) (rows : list (list float)) : list float :=
  fold_left (fun acc row => map (fun p => fmul (fst p) (snd p)) (combine acc row))
            rows (repeat (Fin 1) n).

(** [np.random.normal(size=(days, simulations))] is the array of the draws
    [random_normal d s]: the generator is an argument of the model.  Turning
    a pandas series into the array of its values leaves the list as it is,
    and [int] truncates a non-negative number to its floor. *)
Definition monte_carlo_var (random_normal : nat -> nat -> R)
    (returns : list R) (days simulations : nat) : result float :=
  let mu := np_mean returns in
  let sigma := np_std returns in
  let drift := fsub mu (fmul (Fin 0.5) (fpow sigma 2)) in
  let random_shocks :=
    map (fun d => map (fun s => random_normal d s) (seq 0 simulations)) (seq 0 days) in
  let daily_returns :=
    map (map (fun z => fexp (fadd drift (fmul sigma (Fin z))))) random_shocks in
  let portfolio_path :=
    map (fmul (Fin portfolio_value)) (prod_axis0 simulations daily_returns) in
  let sorted_returns := np_sort_floats portfolio_path in
  let var_index := Z.to_nat (Zfloor (0.05 * INR simulations)) in
  match nth_error sorted_returns var_index with
  | Some v => Ok (fsub (Fin portfolio_value) v)
  | None => Raise (IndexError "index 0 is out of bounds for axis 0 with size 0")
  end.

(** ** Preparing the data

    [fetch_returns] downloads a table of prices and turns its adjusted
    closing prices into returns.  The download is the world's answer, and it
    is an argument of the model: [adj_close] is the downloaded column
    [data['Adj Close']], a series of prices without missing values. *)

(** [x.shift(1)]: every entry moves one place down, the first place is filled
    with [nan] and the last entry is dropped. *)
Definition shift (x : list float) : list float :=
  match x with
  | [] => []
  | _ => NaN :: removelast x
  end.

(** [x.pct_change()]: [x / x.shift(1) - 1], entry by entry. *)
Definition pct_change (x : list R) : list float :=
  map (fun p => fsub (fdiv (fst p) (snd p)) (Fin 1))
      (combine (map Fin x) (shift (map Fin x))).

Definition isnan (a : float) : bool :=
  match a with NaN => true | _ => false end.

(** [x.dropna()]: the entries that are not [nan], in order. *)
Definition dropna (x : list float) : list float :=
  filter (fun a => negb (isnan a)) x.

(** [x.squeeze()]: a series with a single entry becomes that entry, a scalar;
    any other series is left as it is. *)
Inductive squeezed : Type :=
| Scalar (a : float)
| Series (x : list float).

Definition squeeze (x : list float) : squeezed :=
  match x with
  | [a] => Scalar a
  | _ => Series x
  end.

Definition fetch_returns (adj_close : list R) : squeezed :=
  let returns := dropna (pct_change adj_close) in
  squeeze returns.

(** * The specification, in definitions *)

(** ** The linear-interpolated empirical percentile

    The definition of the percentile in words: sort the sample; the
    percentile [q] sits at the fractional rank [(n - 1) * q / 100], counted
    from [0]; split the rank into its integer part [i] and its fraction [g];
    the percentile is the point at fraction [g] of the way from the order
    statistic of rank [i] to the next one. *)
Definition linear_percentile (r : list R) (q v : R) : Prop :=
  exists (s : list R) (i : nat) (g : R),
    Permutation r s /\ Sorted Rle s /\
    (i < length r)%nat /\ 0 <= g < 1 /\
    (g = 0 \/ (S i < length r)%nat) /\
    (INR (length r) - 1) * (q / 100) = INR i + g /\
    v = (1 - g) * nth i s 0 + g * nth (S i) s 0.

(** The virtual index of the percentile [q] in an array of [n] values, and
    the value there of the piecewise-linear curve through the points
    [(i, s_i)]: what [np.percentile] computes, in closed form. *)
Definition virtual_index (n : nat) (q : R) : R := (INR n - 1) * (q / 100).

Definition interpolate (s : list R) (h : R) : R :=
  let i := Z.to_nat (Zfloor h) in
  nth i s 0 + (h - INR i) * (nth (S i) s 0 - nth i s 0).

(** ** The smallest and the largest return of a sample *)

Definition minimum (a : list R) : R :=
  match a with
  | [] => 0
  | x :: l => fold_right Rmin x l
  end.

Definition maximum (a : list R) : R :=
  match a with
  | [] => 0
  | x :: l => fold_right Rmax x l
  end.

(** ** Kupiec's test in the words of the specification

    Exceedances are the returns strictly below the VaR estimate; the
    likelihood of [failures] exceedances among [n] returns under the
    probability [p] is [(1 - p)^(n - failures) * p^failures]; the statistic is
    [-2 * (ln L(p_observed) - ln L(p_expected))]. *)
Definition exceedances (returns : list R) (var : float) : nat :=
  length (filter (fun r => flt (Fin r) var) returns).

Definition likelihood (n failures : nat) (p : float) : float :=
  fmul (fpow (fsub (Fin 1) p) (n - failures)) (fpow p failures).

Definition kupiec_statistic (returns : list R) (var : float) (confidence_level : R)
  : float :=
  let n := length returns in
  let failures := exceedances returns var in
  let p_observed := fdiv (Fin (INR failures)) (Fin (INR n)) in
  let p_expected := Fin (1 - confidence_level) in
  fmul (Fin (-2))
       (fsub (flog (likelihood n failures p_observed))
             (flog (likelihood n failures p_expected))).

(** A statistic is below a critical value when it is [-inf] or a number
    smaller than the critical value; [nan] and [inf] are not. *)
Definition below (a : float) (x : R) : Prop :=
  a = NInf \/ exists y, a = Fin y /\ y < x.

(** ** The simulation in the words of the specification

    The terminal value of a path: the initial value times the exponential
    of the sum, over the days, of the drift-adjusted daily log-returns. *)
Definition terminal_value (initial_value mu sigma : R) (shock : nat -> nat -> R)
    (days path : nat) : R :=
  initial_value *
  exp (Rsum (map (fun d => mu - 0.5 * sigma ^ 2 + sigma * shock d path) (seq 0 days))).

Definition Rprod (a : list R) : R := fold_right Rmult 1 a.

(** ** Simple returns

    The return of a period is the relative change of the price over it. *)
Fixpoint returns_from (previous : R) (prices : list R) : list R :=
  match prices with
  | [] => []
  | p :: prices' => (p / previous - 1) :: returns_from p prices'
  end.

Definition simple_returns (prices : list R) : list R :=
  match prices with
  | [] => []
  | p :: prices' => returns_from p prices'
  end.

(** ** A library to run examples with

    The examples below need some [Library] to be run against.  This one
    answers [nan] on an empty array, fits every sample to [(3, 0, 1)], and
    takes the increasing function [q - 1/2] for both standard quantile
    functions. *)
Definition sample_library : Library := {|
  percentile_of_empty := Ok NaN;
  norm_std_ppf := fun q => q - 1 / 2;
  t_std_ppf := fun _ q => q - 1 / 2;
  t_fit := fun _ => Ok (Fin 3, Fin 0, Fin 1)
|}.

(** * Properties *)

(** ** Comparisons *)

Lemma Rltb_true (x y : R) : Rltb x y = true <-> x < y.
Proof. unfold Rltb; destruct (Rlt_dec x y); split; intros; try discriminate; tauto. Qed.

Lemma Rltb_false (x y : R) : Rltb x y = false <-> y <= x.
Proof.
  unfold Rltb; destruct (Rlt_dec x y); split; intros; try discriminate; try lra; auto.
Qed.

Lemma Rleb_true (x y : R) : Rleb x y = true <-> x <= y.
Proof. unfold Rleb; destruct (Rle_dec x y); split; intros; try discriminate; tauto. Qed.

Lemma Rleb_false (x y : R) : Rleb x y = false <-> y < x.
Proof.
  unfold Rleb; destruct (Rle_dec x y); split; intros; try discriminate; try lra; auto.
Qed.

Lemma Reqb_true (x y : R) : Reqb x y = true <-> x = y.
Proof. unfold Reqb; destruct (Req_dec_T x y); split; intros; try discriminate; tauto. Qed.

Lemma Reqb_false (x y : R) : Reqb x y = false <-> x <> y.
Proof. unfold Reqb; destruct (Req_dec_T x y); split; intros; try discriminate; tauto. Qed.

(** Deciding the comparisons of a goal whose operands are numerals. *)
Ltac decide_cmp :=
  repeat match goal with
    | |- context [Rltb ?x ?y] =>
        first [ rewrite (proj2 (Rltb_true x y)) by lra
              | rewrite (proj2 (Rltb_false x y)) by lra ]
    | |- context [Rleb ?x ?y] =>
        first [ rewrite (proj2 (Rleb_true x y)) by lra
              | rewrite (proj2 (Rleb_false x y)) by lra ]
    | |- context [Reqb ?x ?y] =>
        first [ rewrite (proj2 (Reqb_true x y)) by lra
              | rewrite (proj2 (Reqb_false x y)) by lra ]
    end.

(** ** Sorting *)

Section SortingFacts.
Context {A : Type} (leb : A -> A -> bool).

Lemma insert_perm (x : A) (l : list A) : Permutation (x :: l) (insert leb x l).
Proof.
  induction l as [|y l IH]; simpl; [reflexivity|].
  destruct (leb x y); [reflexivity|].
  rewrite perm_swap. now constructor.
Qed.

Lemma sort_by_perm (l : list A) : Permutation l (sort_by leb l).
Proof.
  induction l as [|x l IH]; simpl; [constructor|].
  rewrite <- insert_perm. now constructor.
Qed.

Lemma sort_by_length (l : list A) : length (sort_by leb l) = length l.
Proof. symmetry. apply Permutation_length, sort_by_perm. Qed.
End SortingFacts.

Lemma insert_sorted (x : R) (l : list R) :
  Sorted Rle l -> Sorted Rle (insert Rleb x l).
Proof.
  induction 1 as [|y l Hs IH Hd]; simpl.
  - constructor; constructor.
  - destruct (Rleb x y) eqn:E.
    + apply Rleb_true in E.
      constructor; [constructor; assumption | constructor; exact E].
    + apply Rleb_false in E. constructor; [assumption|].
      destruct l as [|z l]; simpl.
      * constructor; lra.
      * destruct (Rleb x z); constructor; [lra|].
        now inversion Hd.
Qed.

Lemma np_sort_sorted (a : list R) : Sorted Rle (np_sort a).
Proof.
  unfold np_sort. induction a as [|x a IH]; simpl; [constructor|].
  now apply insert_sorted.
Qed.

Lemma np_sort_perm (a : list R) : Permutation a (np_sort a).
Proof. apply sort_by_perm. Qed.

Lemma np_sort_length (a : list R) : length (np_sort a) = length a.
Proof. apply sort_by_length. Qed.

(** In a sorted array the entries grow with the index. *)
Lemma sorted_nth_le (s : list R) :
  Sorted Rle s ->
  forall i j, (i <= j < length s)%nat -> nth i s 0 <= nth j s 0.
Proof.
  intros Hs. apply Sorted_StronglySorted in Hs; [|intros x y z; apply Rle_trans].
  induction Hs as [|x s Hs IH Hall]; intros i j Hij; simpl in *; [lia|].
  destruct i as [|i], j as [|j]; try lia; try lra.
  - rewrite Forall_forall in Hall. apply Hall, nth_In. lia.
  - apply IH. lia.
Qed.

(** A sorted array is determined by its elements. *)
Lemma sorted_perm_unique (s s' : list R) :
  Sorted Rle s -> Sorted Rle s' -> Permutation s s' -> s = s'.
Proof.
  intros Hs Hs'.
  apply Sorted_StronglySorted in Hs; [|intros x y z; apply Rle_trans].
  apply Sorted_StronglySorted in Hs'; [|intros x y z; apply Rle_trans].
  revert s' Hs'. induction Hs as [|x s Hs IH Hall]; intros s' Hs' Hp.
  - now apply Permutation_nil in Hp.
  - destruct Hs' as [|y s' Hs' Hall'].
    + symmetry in Hp. now apply Permutation_nil in Hp.
    + rewrite Forall_forall in Hall, Hall'.
      assert (x = y) as ->.
      { assert (In y (x :: s)) as [->|Hy]
          by (eapply Permutation_in; [symmetry; exact Hp | now left]);
          [reflexivity|].
        assert (In x (y :: s')) as [->|Hx]
          by (eapply Permutation_in; [exact Hp | now left]);
          [reflexivity|].
        specialize (Hall _ Hy). specialize (Hall' _ Hx). lra. }
      f_equal. apply IH; [assumption|].
      now apply Permutation_cons_inv in Hp.
Qed.

(** Sorting the finite floats is sorting the reals. *)
Lemma np_sort_floats_Fin (a : list R) :
  np_sort_floats (map Fin a) = map Fin (np_sort a).
Proof.
  unfold np_sort_floats, np_sort.
  induction a as [|x a IH]; simpl; [reflexivity|].
  rewrite IH. generalize (sort_by Rleb a) as s.
  induction s as [|y s IHs]; simpl; [reflexivity|].
  destruct (Rleb x y); simpl; [reflexivity|].
  now rewrite IHs.
Qed.

(** ** The percentile *)

Lemma lerp_eq (a b t : R) : lerp a b t = a + (b - a) * t.
Proof. unfold lerp. destruct (Rleb (1 / 2) t); ring. Qed.

Lemma floor_nat_bound (h : R) :
  0 <= h -> INR (Z.to_nat (Zfloor h)) <= h < INR (Z.to_nat (Zfloor h)) + 1.
Proof.
  intros Hh. rewrite INR_IZR_INZ, Z2Nat.id.
  - apply Zfloor_bound.
  - apply (Zfloor_lub 0). exact Hh.
Qed.

Lemma floor_nat_eq (h : R) (i : nat) :
  INR i <= h < INR i + 1 -> Z.to_nat (Zfloor h) = i.
Proof.
  intros H. rewrite (Zfloor_eq (Z.of_nat i)).
  - apply Nat2Z.id.
  - now rewrite <- INR_IZR_INZ.
Qed.

Lemma virtual_index_range (n : nat) (q : R) :
  (0 < n)%nat -> 0 <= q <= 100 -> 0 <= virtual_index n q <= INR n - 1.
Proof.
  intros Hn Hq. unfold virtual_index.
  assert (1 <= INR n) by (apply (le_INR 1); lia).
  split; nra.
Qed.

Section PercentileFacts.
Context {lib : Library}.

Lemma np_percentile_out_of_range (a : list R) (q : R) :
  q < 0 \/ 100 < q ->
  np_percentile a q = Raise (ValueError "Percentiles must be in the range [0, 100]").
Proof.
  intros Hq. unfold np_percentile.
  destruct (Rleb 0 (q / 100)) eqn:E0; [|reflexivity].
  destruct (Rleb (q / 100) 1) eqn:E1; [|reflexivity].
  apply Rleb_true in E0, E1. lra.
Qed.

Lemma np_percentile_in_range (a : list R) (q : R) :
  a <> [] -> 0 <= q <= 100 ->
  np_percentile a q =
  Ok (Fin (interpolate (np_sort a) (virtual_index (length a) q))).
Proof.
  intros Ha Hq. unfold np_percentile.
  rewrite (proj2 (Rleb_true 0 (q / 100))) by lra.
  rewrite (proj2 (Rleb_true (q / 100) 1)) by lra.
  destruct a as [|x a]; [congruence|]. cbn [negb andb].
  set (r := x :: a). rewrite np_sort_length.
  assert (Hn : (0 < length r)%nat) by (simpl; lia).
  fold (virtual_index (length r) q).
  pose proof (virtual_index_range (length r) q Hn Hq) as Hv.
  set (h := virtual_index (length r) q) in *.
  pose proof (floor_nat_bound h (proj1 Hv)) as Hf.
  assert (HI : IZR (Zfloor h) = INR (Z.to_nat (Zfloor h))).
  { rewrite INR_IZR_INZ, Z2Nat.id; [reflexivity|]. apply (Zfloor_lub 0); lra. }
  unfold interpolate. rewrite HI, lerp_eq.
  destruct (Rleb (INR (length r) - 1) h) eqn:E.
  - apply Rleb_true in E.
    assert (Hh : h = INR (length r - 1)).
    { rewrite minus_INR by lia. change (INR 1) with 1. lra. }
    rewrite (floor_nat_eq h (length r - 1)) by (rewrite <- Hh; lra).
    rewrite Hh. do 2 f_equal. ring.
  - rewrite Nat.add_1_r. do 2 f_equal. ring.
Qed.

End PercentileFacts.

(** The interpolated value lies between the two order statistics around the
    virtual index. *)
Lemma interpolate_between (s : list R) (h : R) :
  Sorted Rle s -> s <> [] -> 0 <= h <= INR (length s) - 1 ->
  let i := Z.to_nat (Zfloor h) in
  (i < length s)%nat /\
  nth i s 0 <= interpolate s h /\
  interpolate s h <= nth (Nat.min (S i) (length s - 1)) s 0.
Proof.
  intros Hs Hne Hh i.
  pose proof (floor_nat_bound h (proj1 Hh)) as Hf. fold i in Hf.
  assert (Hn : (0 < length s)%nat) by (destruct s; [congruence | simpl; lia]).
  assert (Hi : (i < length s)%nat).
  { apply INR_lt. lra. }
  split; [exact Hi|].
  unfold interpolate. fold i.
  destruct (Nat.eq_dec (S i) (length s)) as [Hlast | Hmid].
  - assert (h = INR i).
    { assert (INR (S i) = INR (length s)) by now rewrite Hlast.
      rewrite S_INR in *. lra. }
    replace (Nat.min (S i) (length s - 1)) with i by lia.
    replace (h - INR i) with 0 by lra. lra.
  - replace (Nat.min (S i) (length s - 1)) with (S i) by lia.
    assert (nth i s 0 <= nth (S i) s 0) by (apply sorted_nth_le; [assumption | lia]).
    split; nra.
Qed.

(** The percentile grows with the virtual index. *)
Lemma interpolate_mono (s : list R) (h1 h2 : R) :
  Sorted Rle s -> s <> [] -> 0 <= h1 -> h1 <= h2 -> h2 <= INR (length s) - 1 ->
  interpolate s h1 <= interpolate s h2.
Proof.
  intros Hs Hne H0 H12 Hn.
  destruct (interpolate_between s h1 Hs Hne ltac:(lra)) as (Hi1 & Hlo1 & Hhi1).
  destruct (interpolate_between s h2 Hs Hne ltac:(lra)) as (Hi2 & Hlo2 & Hhi2).
  pose proof (floor_nat_bound h1 H0) as Hf1.
  pose proof (floor_nat_bound h2 ltac:(lra)) as Hf2.
  set (i1 := Z.to_nat (Zfloor h1)) in *. set (i2 := Z.to_nat (Zfloor h2)) in *.
  assert (Hle : (i1 <= i2)%nat).
  { apply Nat.lt_succ_r, INR_lt. rewrite S_INR. lra. }
  destruct (Nat.eq_dec i1 i2) as [Heq | Hneq].
  - unfold interpolate. fold i1 i2. rewrite <- Heq in *.
    destruct (Nat.eq_dec (S i1) (length s)) as [Hlast | Hmid].
    + assert (INR (S i1) = INR (length s)) by now rewrite Hlast.
      rewrite S_INR in *.
      replace (h1 - INR i1) with 0 by lra. replace (h2 - INR i1) with 0 by lra. lra.
    + assert (nth i1 s 0 <= nth (S i1) s 0) by (apply sorted_nth_le; [assumption | lia]).
      nra.
  - apply Rle_trans with (nth (Nat.min (S i1) (length s - 1)) s 0); [exact Hhi1|].
    apply Rle_trans with (nth i2 s 0); [|exact Hlo2].
    apply sorted_nth_le; [assumption | lia].
Qed.

Lemma interpolate_linear_percentile (r : list R) (q : R) :
  r <> [] -> 0 <= q <= 100 ->
  linear_percentile r q (interpolate (np_sort r) (virtual_index (length r) q)).
Proof.
  intros Hr Hq.
  assert (Hn : (0 < length r)%nat) by (destruct r; [congruence | simpl; lia]).
  pose proof (virtual_index_range (length r) q Hn Hq) as Hv.
  set (h := virtual_index (length r) q) in *.
  pose proof (floor_nat_bound h (proj1 Hv)) as Hf.
  set (i := Z.to_nat (Zfloor h)) in *.
  exists (np_sort r), i, (h - INR i).
  assert (Hi : (i < length r)%nat) by (apply INR_lt; lra).
  repeat split; try lra.
  - apply np_sort_perm.
  - apply np_sort_sorted.
  - exact Hi.
  - destruct (Nat.eq_dec (S i) (length r)) as [Hlast | Hmid]; [left | right; lia].
    assert (INR (S i) = INR (length r)) by now rewrite Hlast.
    rewrite S_INR in *. lra.
  - fold (virtual_index (length r) q). fold h. lra.
  - unfold interpolate. fold i. ring.
Qed.

Lemma linear_percentile_unique (r : list R) (q v v' : R) :
  linear_percentile r q v -> linear_percentile r q v' -> v = v'.
Proof.
  intros (s & i & g & Hp & Hs & Hi & Hg & _ & Hh & ->)
         (s' & i' & g' & Hp' & Hs' & Hi' & Hg' & _ & Hh' & ->).
  assert (s = s') as <-.
  { apply sorted_perm_unique; try assumption.
    now rewrite <- Hp, <- Hp'. }
  assert (i = i') as <-.
  { assert (INR i < INR (S i')) by (rewrite S_INR; lra).
    assert (INR i' < INR (S i)) by (rewrite S_INR; lra).
    apply INR_lt in H, H0. lia. }
  assert (g = g') as <- by lra.
  reflexivity.
Qed.

(** Running [np.sort] on an array of numerals. *)
Ltac eval_sort :=
  unfold np_sort; repeat (cbn [sort_by insert]; decide_cmp).

Section HistoricalFacts.
Context {lib : Library}.

Lemma calculate_var_historical (r : list R) (c : R) :
  calculate_var r c "historical" =
  call np_percentile_call (np_percentile r (100 * (1 - c))).
Proof. reflexivity. Qed.

Lemma historical_value (r : list R) (c : R) :
  r <> [] -> 0 <= c <= 1 ->
  outcome (calculate_var r c "historical") =
  Ok (Fin (interpolate (np_sort r) (virtual_index (length r) (100 * (1 - c))))).
Proof.
  intros Hr Hc. rewrite calculate_var_historical. unfold call, outcome, snd.
  apply np_percentile_in_range; [assumption | lra].
Qed.

Lemma example_series_value :
  outcome (calculate_var [-0.05; -0.02; 0.01; 0.03; 0.04] 0.8 "historical") =
  Ok (Fin (-0.026)).
Proof.
  rewrite historical_value by (try discriminate; lra).
  do 2 f_equal. unfold interpolate, virtual_index.
  cbn [length]. eval_sort.
  rewrite (floor_nat_eq _ 0%nat) by (simpl; lra).
  simpl. lra.
Qed.

End HistoricalFacts.

Lemma minimum_le (a : list R) (x : R) : In x a -> minimum a <= x.
Proof.
  destruct a as [|y l]; [contradiction|]. simpl.
  revert x. induction l as [|z l IH]; simpl; intros x [<-|H]; try contradiction.
  - lra.
  - pose proof (IH y (or_introl eq_refl)). pose proof (Rmin_r z (fold_right Rmin y l)). lra.
  - destruct H as [<-|H].
    + apply Rmin_l.
    + pose proof (IH x (or_intror H)). pose proof (Rmin_r z (fold_right Rmin y l)). lra.
Qed.

Lemma maximum_ge (a : list R) (x : R) : In x a -> x <= maximum a.
Proof.
  destruct a as [|y l]; [contradiction|]. simpl.
  revert x. induction l as [|z l IH]; simpl; intros x [<-|H]; try contradiction.
  - lra.
  - pose proof (IH y (or_introl eq_refl)). pose proof (Rmax_r z (fold_right Rmax y l)). lra.
  - destruct H as [<-|H].
    + apply Rmax_l.
    + pose proof (IH x (or_intror H)). pose proof (Rmax_r z (fold_right Rmax y l)). lra.
Qed.

Lemma np_sort_nth_in (a : list R) (i : nat) :
  (i < length a)%nat -> In (nth i (np_sort a) 0) a.
Proof.
  intros Hi. apply Permutation_in with (np_sort a).
  - symmetry. apply np_sort_perm.
  - apply nth_In. now rewrite np_sort_length.
Qed.

(** The sum of [n] numbers that are all at most [v] is at most [n * v]. *)
Lemma Rsum_le_bound (a : list R) (v : R) :
  (forall x, In x a -> x <= v) -> Rsum a <= INR (length a) * v.
Proof.
  induction a as [|x a IH]; intros H.
  - simpl. lra.
  - change (Rsum (x :: a)) with (x + Rsum a).
    change (length (x :: a)) with (S (length a)). rewrite S_INR.
    pose proof (H x (or_introl eq_refl)).
    pose proof (IH (fun y Hy => H y (or_intror Hy))). lra.
Qed.

Lemma np_mean_nonempty (a : list R) :
  a <> [] -> np_mean a = Fin (Rsum a / INR (length a)).
Proof. destruct a; [congruence | reflexivity]. Qed.

Lemma mean_le_bound (a : list R) (v : R) :
  a <> [] -> (forall x, In x a -> x <= v) -> Rsum a / INR (length a) <= v.
Proof.
  intros Ha H.
  assert (0 < INR (length a)).
  { apply (lt_INR 0). destruct a; [congruence | simpl; lia]. }
  pose proof (Rsum_le_bound a v H).
  apply Rmult_le_reg_r with (INR (length a)); [assumption|].
  unfold Rdiv. rewrite Rmult_assoc, Rinv_l by lra. lra.
Qed.

(** ** The tail of the sample *)

Section TailFacts.
Context {lib : Library}.

(** The historical threshold of a nonempty series lies between the smallest
    and the largest return. *)
Lemma historical_bounds (r : list R) (c : R) :
  r <> [] -> 0 <= c <= 1 ->
  exists v,
    outcome (calculate_var r c "historical") = Ok (Fin v) /\
    minimum r <= v <= maximum r.
Proof.
  intros Hr Hc. eexists. split; [apply historical_value; assumption|].
  assert (Hn : (0 < length r)%nat) by (destruct r; [congruence | simpl; lia]).
  pose proof (virtual_index_range (length r) (100 * (1 - c)) Hn ltac:(lra)) as Hv.
  set (h := virtual_index (length r) (100 * (1 - c))) in *.
  assert (Hs : np_sort r <> []).
  { intros E. apply (f_equal (@length R)) in E. rewrite np_sort_length in E.
    simpl in E. lia. }
  destruct (interpolate_between (np_sort r) h (np_sort_sorted r) Hs) as (Hi & Hlo & Hhi).
  { now rewrite np_sort_length. }
  rewrite np_sort_length in *.
  split.
  - eapply Rle_trans; [|exact Hlo]. apply minimum_le, np_sort_nth_in. exact Hi.
  - eapply Rle_trans; [exact Hhi|]. apply maximum_ge, np_sort_nth_in. lia.
Qed.

Lemma minimum_in (a : list R) : a <> [] -> In (minimum a) a.
Proof.
  destruct a as [|y l]; [congruence|]. intros _. simpl.
  induction l as [|z l IH]; simpl; [now left|].
  destruct (Rle_dec z (fold_right Rmin y l)).
  - rewrite Rmin_left by assumption. right; left; reflexivity.
  - rewrite Rmin_right by lra.
    destruct IH as [IH|IH]; [left | right; right]; exact IH.
Qed.

Lemma calculate_cvar_value (r : list R) (c v : R) :
  outcome (calculate_var r c "historical") = Ok (Fin v) ->
  outcome (calculate_cvar r c) =
  Ok (np_mean (filter (fun x => Rleb x v) r)).
Proof.
  unfold calculate_cvar. rewrite calculate_var_historical.
  unfold call, outcome, bind, snd. intros ->. reflexivity.
Qed.

End TailFacts.

(** ** The parametric methods *)

Section MethodFacts.
Context {lib : Library}.

Lemma calculate_var_normal (r : list R) (c : R) :
  calculate_var r c "normal" =
  ([np_mean_call; np_std_call; norm_ppf_call],
   Ok (norm_ppf (1 - c) (np_mean r) (np_std r))).
Proof. reflexivity. Qed.

Lemma calculate_var_t_dist (r : list R) (c : R) :
  calculate_var r c "t-dist" =
  match t_fit r with
  | Ok (df, loc, scale) =>
      ([t_fit_call; t_ppf_call], Ok (t_ppf (1 - c) df loc scale))
  | Raise e => ([t_fit_call], Raise e)
  end.
Proof.
  unfold calculate_var. cbn [String.eqb Ascii.eqb Bool.eqb].
  unfold bind, call. destruct (t_fit r) as [[[df loc] scale]|e]; reflexivity.
Qed.

Lemma np_std_empty : np_std [] = NaN.
Proof. reflexivity. Qed.

Lemma rv_ppf_nan_scale (b : bool) (f : R -> R) (q : R) (loc : float) :
  rv_ppf b f q loc NaN = NaN.
Proof. unfold rv_ppf. cbn [flt]. now rewrite andb_false_r. Qed.

Lemma normal_var_of_empty (c : R) :
  outcome (calculate_var [] c "normal") = Ok NaN.
Proof.
  rewrite calculate_var_normal. unfold outcome, snd, norm_ppf.
  now rewrite np_std_empty, rv_ppf_nan_scale.
Qed.

End MethodFacts.

Lemma tail_nonempty (r : list R) (v : R) :
  r <> [] -> minimum r <= v -> filter (fun x => Rleb x v) r <> [].
Proof.
  intros Hr Hv E.
  assert (Hin : In (minimum r) (filter (fun x => Rleb x v) r)).
  { apply filter_In. split; [now apply minimum_in | now apply Rleb_true]. }
  rewrite E in Hin. exact Hin.
Qed.

Lemma tail_below (r : list R) (v x : R) :
  In x (filter (fun x => Rleb x v) r) -> x <= v.
Proof. intros H. apply filter_In in H. now apply Rleb_true. Qed.

(** ** Monotonicity in the confidence level *)

Section Monotone.
Context {lib : Library}.

Lemma historical_var_antitone (r : list R) (c1 c2 : R) :
  r <> [] -> 0 <= c1 -> c1 <= c2 -> c2 <= 1 ->
  exists v1 v2,
    outcome (calculate_var r c1 "historical") = Ok (Fin v1) /\
    outcome (calculate_var r c2 "historical") = Ok (Fin v2) /\
    v2 <= v1.
Proof.
  intros Hr H0 H12 H1. do 2 eexists.
  split; [apply historical_value; [assumption | lra]|].
  split; [apply historical_value; [assumption | lra]|].
  assert (Hn : (0 < length r)%nat) by (destruct r; [congruence | simpl; lia]).
  assert (Hs : np_sort r <> []).
  { intros E. apply (f_equal (@length R)) in E. rewrite np_sort_length in E.
    simpl in E. lia. }
  pose proof (virtual_index_range (length r) (100 * (1 - c1)) Hn ltac:(lra)) as Hv1.
  pose proof (virtual_index_range (length r) (100 * (1 - c2)) Hn ltac:(lra)) as Hv2.
  apply interpolate_mono.
  - apply np_sort_sorted.
  - exact Hs.
  - lra.
  - unfold virtual_index. assert (1 <= INR (length r)) by (apply (le_INR 1); lia). nra.
  - rewrite np_sort_length. lra.
Qed.

(** The quantile of a law with valid parameters, strictly inside (0,1). *)
Lemma rv_ppf_regular (f : R -> R) (q loc scale : R) :
  0 < q < 1 -> 0 < scale ->
  rv_ppf true f q (Fin loc) (Fin scale) = Fin (f q * scale + loc).
Proof.
  intros Hq Hs. unfold rv_ppf. cbn [flt feq andb negb fmul fadd].
  now decide_cmp.
Qed.

(** On a series without dispersion the normal quantile is [nan]. *)
Lemma rv_ppf_zero_scale (b : bool) (f : R -> R) (q loc : R) :
  rv_ppf b f q (Fin loc) (Fin 0) = NaN.
Proof.
  unfold rv_ppf. cbn [flt]. decide_cmp. now rewrite andb_false_r.
Qed.

(** With fitted parameters that are valid, the Student-t estimate is the
    quantile of the location-scale law: the standard quantile inverts the
    standard distribution function [F], so the law with location [loc] and
    scale [scale] puts the probability [1 - c] below the estimate. *)
Lemma student_t_var_quantile (F : R -> R) (r : list R) (c df loc scale : R) :
  0 < c < 1 ->
  t_fit r = Ok (Fin df, Fin loc, Fin scale) -> 0 < df -> 0 < scale ->
  (forall p, 0 < p < 1 -> F (t_std_ppf (Fin df) p) = p) ->
  exists v,
    calculate_var r c "t-dist" = ([t_fit_call; t_ppf_call], Ok (Fin v)) /\
    F ((v - loc) / scale) = 1 - c.
Proof.
  intros Hc Hfit Hdf Hsc HF. rewrite calculate_var_t_dist, Hfit.
  unfold t_ppf. cbn [flt]. rewrite (proj2 (Rltb_true 0 df)) by lra.
  rewrite rv_ppf_regular by lra. eexists. split; [reflexivity|].
  replace ((t_std_ppf (Fin df) (1 - c) * scale + loc - loc) / scale)
    with (t_std_ppf (Fin df) (1 - c)) by (field; lra).
  apply HF. lra.
Qed.

End Monotone.

Lemma np_std_singleton (x : R) : np_std [x] = Fin 0.
Proof.
  unfold np_std, np_mean, Rsum. cbn [length map fold_right INR].
  f_equal. replace ((x - (x + 0) / 1) * (x - (x + 0) / 1) + 0) with 0 by (field_simplify; lra).
  unfold Rdiv. rewrite Rmult_0_l. apply sqrt_0.
Qed.

Lemma np_std_example : np_std [0.01; -0.02] = Fin 0.015.
Proof.
  unfold np_std, np_mean, Rsum. cbn [length map fold_right INR].
  f_equal. rewrite <- (sqrt_square 0.015) by lra. f_equal. lra.
Qed.

(** ** Kupiec's test *)

Lemma bool_sum_map {A : Type} (f : A -> bool) (l : list A) :
  bool_sum (map f l) = length (filter f l).
Proof.
  unfold bool_sum. induction l as [|x l IH]; simpl; [reflexivity|].
  destruct (f x); simpl; now rewrite IH.
Qed.

Lemma bool_mean_map {A : Type} (f : A -> bool) (l : list A) :
  bool_mean (map f l) = fdiv (Fin (INR (length (filter f l)))) (Fin (INR (length l))).
Proof.
  destruct l as [|x l].
  - simpl. unfold inf_signed. now decide_cmp.
  - unfold bool_mean. rewrite bool_sum_map, length_map.
    cbn [map fdiv]. set (r := x :: l).
    assert (INR (length r) <> 0) by (apply not_0_INR; discriminate).
    now rewrite (proj2 (Reqb_false _ _) H).
Qed.

Lemma flt_below (a : float) (x : R) : flt a (Fin x) = true <-> below a x.
Proof.
  unfold below. destruct a as [y| | |]; simpl; split.
  - intros H. apply Rltb_true in H. right. now exists y.
  - intros [H|(z & H & Hz)]; [discriminate|]. injection H as ->. now apply Rltb_true.
  - discriminate.
  - intros [H|(z & H & _)]; discriminate.
  - now left.
  - reflexivity.
  - discriminate.
  - intros [H|(z & H & _)]; discriminate.
Qed.

Lemma likelihood_ratio_statistic (returns : list R) (var : float) (c : R) :
  likelihood_ratio returns var c = kupiec_statistic returns var c.
Proof.
  unfold likelihood_ratio, kupiec_statistic, likelihood, exceedances.
  now rewrite bool_sum_map, bool_mean_map.
Qed.

(** ** The simulation *)

Lemma var_index_div (n : nat) : Z.to_nat (Zfloor (0.05 * INR n)) = (n / 20)%nat.
Proof.
  apply floor_nat_eq.
  pose proof (Nat.div_mod_eq n 20) as E.
  pose proof (Nat.mod_upper_bound n 20 ltac:(lia)) as Hm.
  assert (E20 : INR 20 = 20) by (rewrite INR_IZR_INZ; reflexivity).
  assert (En : INR n = 20 * INR (n / 20) + INR (n mod 20)).
  { rewrite E at 1. now rewrite plus_INR, mult_INR, E20. }
  assert (0 <= INR (n mod 20)) by apply pos_INR.
  assert (INR (n mod 20) < 20).
  { apply lt_INR in Hm. now rewrite E20 in Hm. }
  lra.
Qed.

Lemma Rprod_exp {A : Type} (g : A -> R) (l : list A) :
  Rprod (map (fun d => exp (g d)) l) = exp (Rsum (map g l)).
Proof.
  unfold Rprod, Rsum. induction l as [|d l IH]; simpl.
  - now rewrite exp_0.
  - now rewrite IH, exp_plus.
Qed.

Lemma repeat_map_seq {A : Type} (x : A) (n s : nat) :
  repeat x n = map (fun _ => x) (seq s n).
Proof. revert s. induction n as [|n IH]; intros s; simpl; [|rewrite <- IH]; reflexivity. Qed.

Lemma map_combine_map {A B C D : Type} (g : B * C -> D) (a : A -> B) (b : A -> C)
    (l : list A) :
  map g (combine (map a l) (map b l)) = map (fun s => g (a s, b s)) l.
Proof. induction l as [|x l IH]; simpl; [|rewrite IH]; reflexivity. Qed.

(** The product along the days of an array of finite values, column by
    column. *)
Lemma fold_prod_Fin (f : nat -> nat -> R) (cols days : list nat) (acc : nat -> R) :
  fold_left (fun acc row => map (fun p => fmul (fst p) (snd p)) (combine acc row))
            (map (fun d => map (fun s => Fin (f d s)) cols) days)
            (map (fun s => Fin (acc s)) cols)
  = map (fun s => Fin (acc s * Rprod (map (fun d => f d s) days))) cols.
Proof.
  revert acc. induction days as [|d days IH]; intros acc; simpl.
  - apply map_ext. intros s. f_equal. unfold Rprod. simpl. ring.
  - rewrite map_combine_map. cbn [fst snd fmul].
    rewrite (IH (fun s => acc s * f d s)).
    apply map_ext. intros s. f_equal. unfold Rprod. simpl. ring.
Qed.

Lemma prod_axis0_Fin (f : nat -> nat -> R) (days n : nat) :
  prod_axis0 n (map (fun d => map (fun s => Fin (f d s)) (seq 0 n)) (seq 0 days))
  = map (fun s => Fin (Rprod (map (fun d => f d s) (seq 0 days)))) (seq 0 n).
Proof.
  unfold prod_axis0. rewrite (repeat_map_seq (Fin 1) n 0).
  rewrite (fold_prod_Fin f (seq 0 n) (seq 0 days) (fun _ => 1)).
  apply map_ext. intros s. f_equal. ring.
Qed.

Lemma monte_carlo_var_value (shock : nat -> nat -> R) (returns : list R)
    (days simulations : nat) (mu sigma : R) :
  np_mean returns = Fin mu -> np_std returns = Fin sigma ->
  (0 < simulations)%nat ->
  monte_carlo_var shock returns days simulations =
  Ok (Fin (portfolio_value -
           nth (simulations / 20)
               (np_sort (map (terminal_value portfolio_value mu sigma shock days)
                             (seq 0 simulations))) 0)).
Proof.
  intros Hmu Hsigma Hn. unfold monte_carlo_var.
  rewrite Hmu, Hsigma, var_index_div. cbn [fpow fmul fsub fopp fadd].
  rewrite map_map.
  rewrite (map_ext
    (fun d => map (fun z => fexp (fadd (Fin (mu + - (0.5 * sigma ^ 2))) (fmul (Fin sigma) (Fin z))))
                  (map (fun s => shock d s) (seq 0 simulations)))
    (fun d => map (fun s => Fin (exp (mu - 0.5 * sigma ^ 2 + sigma * shock d s)))
                  (seq 0 simulations))).
  2:{ intros d. rewrite map_map. apply map_ext. intros s. reflexivity. }
  rewrite (prod_axis0_Fin
             (fun d s => exp (mu - 0.5 * sigma ^ 2 + sigma * shock d s)) days simulations).
  rewrite map_map. cbn [fmul].
  rewrite (map_ext
    (fun s => Fin (portfolio_value *
                   Rprod (map (fun d => exp (mu - 0.5 * sigma ^ 2 + sigma * shock d s))
                              (seq 0 days))))
    (fun s => Fin (terminal_value portfolio_value mu sigma shock days s))).
  2:{ intros s. unfold terminal_value. now rewrite Rprod_exp. }
  rewrite <- (map_map (terminal_value portfolio_value mu sigma shock days) Fin).
  rewrite np_sort_floats_Fin.
  set (s := np_sort _).
  assert (Hlen : (simulations / 20 < length s)%nat).
  { subst s. rewrite np_sort_length, length_map, length_seq.
    apply Nat.div_lt; lia. }
  rewrite nth_error_map.
  destruct (nth_error s (simulations / 20)) as [x|] eqn:E.
  - apply (nth_error_nth _ _ 0) in E. rewrite E. cbn [option_map fsub fopp fadd].
    reflexivity.
  - apply nth_error_None in E. lia.
Qed.

(** Without a path there is no terminal value to index. *)
Lemma monte_carlo_var_no_path (shock : nat -> nat -> R) (returns : list R) (days : nat) :
  monte_carlo_var shock returns days 0 =
  Raise (IndexError "index 0 is out of bounds for axis 0 with size 0").
Proof.
  unfold monte_carlo_var. rewrite var_index_div. cbn [seq Nat.div].
  assert (E : forall rows, prod_axis0 0 rows = []).
  { unfold prod_axis0. cbn [repeat]. induction rows as [|row rows IH]; [reflexivity|].
    cbn [fold_left combine map]. exact IH. }
  rewrite E. reflexivity.
Qed.

Lemma np_mean_example : np_mean [0.01; -0.02] = Fin (-0.005).
Proof. unfold np_mean, Rsum. cbn [length fold_right INR]. f_equal. lra. Qed.

(** * The claims *)

(** C1 (amended).  On every nonempty return series and for every confidence
    level [c] in (0,1), the historical VaR is the linear-interpolated
    empirical percentile of the series at [100 * (1 - c)], and it is the only
    value that is; on the series [-0.05, -0.02, 0.01, 0.03, 0.04] with
    [c = 0.8] it is [-0.026]. *)
Theorem historical_var_linear_percentile :
  forall lib : Library,
    (forall (r : list R) (c : R),
        r <> [] -> 0 < c < 1 ->
        exists v,
          outcome (calculate_var r c "historical") = Ok (Fin v) /\
          linear_percentile r (100 * (1 - c)) v /\
          (forall v', linear_percentile r (100 * (1 - c)) v' -> v' = v)) /\
    outcome (calculate_var [-0.05; -0.02; 0.01; 0.03; 0.04] 0.8 "historical") =
    Ok (Fin (-0.026)).
Proof.
  intros lib. split; [|apply example_series_value].
  intros r c Hr Hc. eexists. split; [apply historical_value; [assumption | lra]|].
  assert (Hl : linear_percentile r (100 * (1 - c))
                 (interpolate (np_sort r) (virtual_index (length r) (100 * (1 - c)))))
    by (apply interpolate_linear_percentile; [assumption | lra]).
  split; [exact Hl|].
  intros v' Hv'. exact (linear_percentile_unique _ _ _ _ Hv' Hl).
Qed.

Lemma historical_var_linear_percentile_witness :
  [0.01; -0.02] <> [] /\ 0 < 0.95 < 1 /\
  exists v,
    outcome (calculate_var (lib := sample_library) [0.01; -0.02] 0.95 "historical")
    = Ok (Fin v) /\
    linear_percentile [0.01; -0.02] (100 * (1 - 0.95)) v /\
    (forall v', linear_percentile [0.01; -0.02] (100 * (1 - 0.95)) v' -> v' = v).
Proof.
  split; [discriminate|]. split; [lra|].
  apply (proj1 (historical_var_linear_percentile sample_library)); [discriminate | lra].
Defined.

(** C1, as stated, fails on its own example: the code returns [-0.026], which
    is [0.006] away from [-0.032]. *)
Lemma historical_var_example_refuted :
  ~ (exists v,
        outcome (calculate_var (lib := sample_library)
                   [-0.05; -0.02; 0.01; 0.03; 0.04] 0.8 "historical") = Ok (Fin v) /\
        Rabs (v - (-0.032)) <= 0.005).
Proof.
  intros (v & Hv & Habs). rewrite example_series_value in Hv.
  injection Hv as <-. revert Habs. unfold Rabs.
  destruct (Rcase_abs (-0.026 - -0.032)); lra.
Qed.


(** C3.  When the series has mean [mu] and standard deviation [sigma]
    ([np.mean] and [np.std], which divides by the number of observations),
    then for every assignment of the shocks the simulation returns the
    initial value minus the entry of index [floor(0.05 * simulations)] of the
    terminal values sorted in ascending order, the terminal value of a path
    being [initial value * exp(sum over the days of
    (mu - 0.5 * sigma^2 + sigma * shock))]. *)
Theorem monte_carlo_var_refines_specification :
  forall (shock : nat -> nat -> R) (returns : list R) (days simulations : nat)
         (mu sigma : R),
    np_mean returns = Fin mu -> np_std returns = Fin sigma ->
    (0 < simulations)%nat ->
    exists sorted : list R,
      Permutation
        (map (terminal_value portfolio_value mu sigma shock days) (seq 0 simulations))
        sorted /\
      Sorted Rle sorted /\
      (Z.to_nat (Zfloor (0.05 * INR simulations)) < length sorted)%nat /\
      monte_carlo_var shock returns days simulations =
      Ok (Fin (portfolio_value -
               nth (Z.to_nat (Zfloor (0.05 * INR simulations))) sorted 0)).
Proof.
  intros shock returns days n mu sigma Hmu Hsigma Hn.
  exists (np_sort (map (terminal_value portfolio_value mu sigma shock days) (seq 0 n))).
  split; [apply np_sort_perm|]. split; [apply np_sort_sorted|].
  rewrite var_index_div. split.
  - rewrite np_sort_length, length_map, length_seq. apply Nat.div_lt; lia.
  - now apply monte_carlo_var_value.
Qed.

Lemma monte_carlo_var_refines_specification_witness :
  np_mean [0.01; -0.02] = Fin (-0.005) /\ np_std [0.01; -0.02] = Fin 0.015 /\
  (0 < 3)%nat /\
  exists sorted : list R,
    Permutation
      (map (terminal_value portfolio_value (-0.005) 0.015
              (fun d s => INR d - INR s) 2) (seq 0 3))
      sorted /\
    Sorted Rle sorted /\
    (Z.to_nat (Zfloor (0.05 * INR 3)) < length sorted)%nat /\
    monte_carlo_var (fun d s => INR d - INR s) [0.01; -0.02] 2 3 =
    Ok (Fin (portfolio_value - nth (Z.to_nat (Zfloor (0.05 * INR 3))) sorted 0)).
Proof.
  split; [exact np_mean_example|]. split; [exact np_std_example|].
  split; [lia|].
  apply (monte_carlo_var_refines_specification (fun d s => INR d - INR s)
           [0.01; -0.02] 2 3 (-0.005) 0.015 np_mean_example np_std_example).
  lia.
Defined.











(** C9.  A method string other than the three the code knows makes
    [calculate_var] raise its "Invalid method" error, whatever the series
    and the confidence level, and no library routine has been called by
    then. *)
Theorem invalid_method_no_partial_computation :
  forall (lib : Library) (returns : list R) (confidence_level : R) (method : string),
    method <> "historical"%string -> method <> "normal"%string ->
    method <> "t-dist"%string ->
    calculate_var returns confidence_level method =
    ([], Raise (ValueError "Invalid method. Choose: historical/normal/t-dist")).
Proof.
  intros lib r c m H1 H2 H3. unfold calculate_var.
  apply String.eqb_neq in H1, H2, H3. rewrite H1, H2, H3. reflexivity.
Qed.

Lemma invalid_method_no_partial_computation_witness :
  "garch"%string <> "historical"%string /\
  calculate_var (lib := sample_library) [0.01; -0.02] 0.95 "garch" =
  ([], Raise (ValueError "Invalid method. Choose: historical/normal/t-dist")).
Proof.
  split; [discriminate|].
  apply (invalid_method_no_partial_computation sample_library); discriminate.
Defined.

(** C10.  On a nonempty series and for a confidence level in (0,1) the
    historical threshold lies between the smallest and the largest return,
    so some return is at or below it: the tail [calculate_cvar] averages is
    not empty and its result is the mean of that tail, a finite number. *)
Theorem historical_threshold_within_sample :
  forall (lib : Library) (r : list R) (c : R),
    r <> [] -> 0 < c < 1 ->
    exists v,
      outcome (calculate_var r c "historical") = Ok (Fin v) /\
      minimum r <= v <= maximum r /\
      filter (fun x => Rleb x v) r <> [] /\
      outcome (calculate_cvar r c) =
      Ok (Fin (Rsum (filter (fun x => Rleb x v) r) /
               INR (length (filter (fun x => Rleb x v) r)))).
Proof.
  intros lib r c Hr Hc.
  destruct (historical_bounds r c Hr ltac:(lra)) as (v & Hv & Hb).
  exists v. split; [exact Hv|]. split; [exact Hb|].
  pose proof (tail_nonempty r v Hr (proj1 Hb)) as Ht.
  split; [exact Ht|].
  rewrite (calculate_cvar_value r c v Hv). now rewrite np_mean_nonempty.
Qed.

Lemma historical_threshold_within_sample_witness :
  [0.01; -0.02] <> [] /\ 0 < 0.95 < 1 /\
  exists v,
    outcome (calculate_var (lib := sample_library) [0.01; -0.02] 0.95 "historical")
    = Ok (Fin v) /\
    minimum [0.01; -0.02] <= v <= maximum [0.01; -0.02] /\
    filter (fun x => Rleb x v) [0.01; -0.02] <> [] /\
    outcome (calculate_cvar (lib := sample_library) [0.01; -0.02] 0.95) =
    Ok (Fin (Rsum (filter (fun x => Rleb x v) [0.01; -0.02]) /
             INR (length (filter (fun x => Rleb x v) [0.01; -0.02])))).
Proof.
  split; [discriminate|]. split; [lra|].
  apply (historical_threshold_within_sample sample_library); [discriminate | lra].
Defined.

(** * Further properties of the notebook *)

(** ** Kupiec's statistic never rejects *)

Lemma ln_le_compat (x y : R) : 0 < x -> x <= y -> ln x <= ln y.
Proof.
  intros Hx [Hlt | ->]; [|lra]. left. now apply ln_increasing.
Qed.

Lemma ln_le_minus_1 (x : R) : 0 < x -> ln x <= x - 1.
Proof.
  intros Hx. pose proof (exp_ineq1_le (ln x)) as H. rewrite exp_ln in H by assumption. lra.
Qed.

(** [t * (ln x - ln y) <= t * (x / y - 1)]: the tangent bound of the
    logarithm, weighted. *)
Lemma ln_ratio_bound (t x y : R) :
  0 <= t -> 0 < x -> 0 < y -> t * (ln x - ln y) <= t * (x / y - 1).
Proof.
  intros Ht Hx Hy. apply Rmult_le_compat_l; [assumption|].
  assert (Hinv : 0 < / y) by now apply Rinv_0_lt_compat.
  replace (ln x - ln y) with (ln (x / y)).
  - apply ln_le_minus_1. unfold Rdiv. now apply Rmult_lt_0_compat.
  - unfold Rdiv. rewrite ln_mult, ln_Rinv by assumption. ring.
Qed.

(** Among all probabilities, the observed proportion [f / n] makes [f]
    exceedances in [n] returns most likely. *)
Lemma likelihood_maximal (n f : nat) (p : R) :
  (0 < n)%nat -> (f <= n)%nat -> 0 < p < 1 ->
  0 < (1 - p) ^ (n - f) * p ^ f /\
  (1 - p) ^ (n - f) * p ^ f <= (1 - INR f / INR n) ^ (n - f) * (INR f / INR n) ^ f.
Proof.
  intros Hn Hf Hp.
  assert (HN : 0 < INR n) by (apply (lt_INR 0); lia).
  assert (Hpos : 0 < (1 - p) ^ (n - f) * p ^ f).
  { apply Rmult_lt_0_compat; apply pow_lt; lra. }
  split; [exact Hpos|].
  destruct (Nat.eq_dec f 0) as [-> | Hf0].
  { rewrite Nat.sub_0_r. cbn [INR pow]. unfold Rdiv. rewrite Rmult_0_l, Rminus_0_r, pow1.
    rewrite !Rmult_1_r.
    apply Rle_trans with (1 ^ n); [apply pow_incr; lra | rewrite pow1; lra]. }
  destruct (Nat.eq_dec f n) as [-> | Hfn].
  { rewrite Nat.sub_diag. cbn [pow]. unfold Rdiv. rewrite Rinv_r by lra.
    rewrite pow1, !Rmult_1_l.
    apply Rle_trans with (1 ^ n); [apply pow_incr; lra | rewrite pow1; lra]. }
  assert (Hb : 0 < INR f) by (apply (lt_INR 0); lia).
  assert (Ha : 0 < INR (n - f)) by (apply (lt_INR 0); lia).
  assert (Hab : INR (n - f) = INR n - INR f) by (apply minus_INR; lia).
  set (q := INR f / INR n).
  assert (Hq : 0 < q < 1).
  { unfold q. split.
    - apply Rdiv_lt_0_compat; assumption.
    - apply Rmult_lt_reg_r with (INR n); [assumption|].
      unfold Rdiv. rewrite Rmult_assoc, Rinv_l by lra. lra. }
  assert (Hqpos : 0 < (1 - q) ^ (n - f) * q ^ f).
  { apply Rmult_lt_0_compat; apply pow_lt; lra. }
  apply Rnot_lt_le. intros Hlt. apply ln_increasing in Hlt; [|assumption].
  rewrite !ln_mult, !ln_pow in Hlt by (try apply pow_lt; lra).
  pose proof (ln_ratio_bound (INR (n - f)) (1 - p) (1 - q) ltac:(lra) ltac:(lra) ltac:(lra)) as H1.
  pose proof (ln_ratio_bound (INR f) p q ltac:(lra) ltac:(lra) ltac:(lra)) as H2.
  assert (E1 : INR (n - f) * ((1 - p) / (1 - q) - 1) = INR n * (1 - p) - INR (n - f)).
  { unfold q. rewrite Hab. field. split; lra. }
  assert (E2 : INR f * (p / q - 1) = INR n * p - INR f).
  { unfold q. field. split; lra. }
  rewrite E1 in H1. rewrite E2 in H2. rewrite Hab in *. lra.
Qed.

Lemma fpow_Fin (x : R) (k : nat) : fpow (Fin x) k = Fin (x ^ k).
Proof. destruct k; reflexivity. Qed.

Lemma likelihood_Fin (n f : nat) (p : R) :
  likelihood n f (Fin p) = Fin ((1 - p) ^ (n - f) * p ^ f).
Proof. unfold likelihood. cbn [fsub fopp fadd]. now rewrite !fpow_Fin. Qed.

Lemma exceedances_le_length (returns : list R) (var : float) :
  (exceedances returns var <= length returns)%nat.
Proof. apply filter_length_le. Qed.

(** The likelihood under the observed proportion is a positive number, also
    when the proportion is [0] or [1]. *)
Lemma likelihood_observed_pos (n f : nat) :
  (0 < n)%nat -> (f <= n)%nat ->
  0 < (1 - INR f / INR n) ^ (n - f) * (INR f / INR n) ^ f.
Proof.
  intros Hn Hf.
  assert (HN : 0 < INR n) by (apply (lt_INR 0); lia).
  destruct (Nat.eq_dec f 0) as [-> | Hf0].
  { rewrite Nat.sub_0_r. cbn [INR pow]. unfold Rdiv. rewrite Rmult_0_l, Rminus_0_r, pow1. lra. }
  destruct (Nat.eq_dec f n) as [-> | Hfn].
  { rewrite Nat.sub_diag. cbn [pow]. unfold Rdiv. rewrite Rinv_r by lra. rewrite pow1. lra. }
  assert (Hb : 0 < INR f) by (apply (lt_INR 0); lia).
  assert (Hlt : INR f < INR n) by (apply lt_INR; lia).
  assert (0 < INR f / INR n) by (apply Rdiv_lt_0_compat; assumption).
  assert (INR f / INR n < 1).
  { apply Rmult_lt_reg_r with (INR n); [assumption|].
    unfold Rdiv. rewrite Rmult_assoc, Rinv_l by lra. lra. }
  apply Rmult_lt_0_compat; apply pow_lt; lra.
Qed.

Lemma kupiec_statistic_value (returns : list R) (var : float) (c : R) :
  returns <> [] -> 0 < c < 1 ->
  let n := length returns in
  let f := exceedances returns var in
  kupiec_statistic returns var c =
  Fin (-2 * (ln ((1 - INR f / INR n) ^ (n - f) * (INR f / INR n) ^ f)
             - ln ((1 - (1 - c)) ^ (n - f) * (1 - c) ^ f))).
Proof.
  intros Hr Hc n f.
  assert (Hn : (0 < n)%nat) by (subst n; destruct returns; [congruence | simpl; lia]).
  assert (HN : 0 < INR n) by (apply (lt_INR 0); lia).
  assert (Hf : (f <= n)%nat) by apply exceedances_le_length.
  unfold kupiec_statistic. fold n f. cbn [fdiv].
  rewrite (proj2 (Reqb_false (INR n) 0)) by lra.
  rewrite !likelihood_Fin. cbn [flog].
  pose proof (likelihood_observed_pos n f Hn Hf) as Ho.
  destruct (likelihood_maximal n f (1 - c) Hn Hf ltac:(lra)) as (He & _).
  rewrite (proj2 (Rltb_true 0 _) Ho), (proj2 (Rltb_true 0 _) He).
  reflexivity.
Qed.





(** ** The historical estimate at the ends of the scale, and the order of
    the series *)

Lemma maximum_in (a : list R) : a <> [] -> In (maximum a) a.
Proof.
  destruct a as [|y l]; [congruence|]. intros _. simpl.
  induction l as [|z l IH]; simpl; [now left|].
  destruct (Rle_dec z (fold_right Rmax y l)).
  - rewrite Rmax_right by assumption.
    destruct IH as [IH|IH]; [left | right; right]; exact IH.
  - rewrite Rmax_left by lra. right; left; reflexivity.
Qed.

Lemma np_sort_in (a : list R) (x : R) : In x a -> exists j, (j < length a)%nat /\ nth j (np_sort a) 0 = x.
Proof.
  intros Hx. apply (Permutation_in _ (np_sort_perm a)) in Hx.
  destruct (In_nth _ _ 0 Hx) as (j & Hj & E). rewrite np_sort_length in Hj. eauto.
Qed.

Lemma np_sort_first (a : list R) : a <> [] -> nth 0 (np_sort a) 0 = minimum a.
Proof.
  intros Ha.
  assert (Hn : (0 < length a)%nat) by (destruct a; [congruence | simpl; lia]).
  apply Rle_antisym.
  - destruct (np_sort_in a (minimum a) (minimum_in a Ha)) as (j & Hj & <-).
    apply sorted_nth_le; [apply np_sort_sorted | rewrite np_sort_length; lia].
  - apply minimum_le, np_sort_nth_in. exact Hn.
Qed.

Lemma np_sort_last (a : list R) : a <> [] -> nth (length a - 1) (np_sort a) 0 = maximum a.
Proof.
  intros Ha.
  assert (Hn : (0 < length a)%nat) by (destruct a; [congruence | simpl; lia]).
  apply Rle_antisym.
  - apply maximum_ge, np_sort_nth_in. lia.
  - destruct (np_sort_in a (maximum a) (maximum_in a Ha)) as (j & Hj & <-).
    apply sorted_nth_le; [apply np_sort_sorted | rewrite np_sort_length; lia].
Qed.

Lemma np_sort_permutation (a a' : list R) : Permutation a a' -> np_sort a = np_sort a'.
Proof.
  intros Hp. apply sorted_perm_unique; try apply np_sort_sorted.
  rewrite <- (np_sort_perm a), <- (np_sort_perm a'). exact Hp.
Qed.

Lemma filter_permutation {A : Type} (f : A -> bool) (l l' : list A) :
  Permutation l l' -> Permutation (filter f l) (filter f l').
Proof.
  induction 1 as [| x l l' _ IH | x y l | l l' l'' _ IH1 _ IH2]; simpl.
  - constructor.
  - destruct (f x); [constructor|]; exact IH.
  - destruct (f x), (f y); try reflexivity. apply perm_swap.
  - now transitivity (filter f l').
Qed.

Lemma Rsum_permutation (l l' : list R) : Permutation l l' -> Rsum l = Rsum l'.
Proof.
  unfold Rsum. induction 1; simpl; lra.
Qed.

Lemma np_mean_permutation (l l' : list R) : Permutation l l' -> np_mean l = np_mean l'.
Proof.
  intros Hp. destruct l as [|x l], l' as [|x' l'].
  - reflexivity.
  - now apply Permutation_nil in Hp.
  - symmetry in Hp. now apply Permutation_nil in Hp.
  - unfold np_mean. now rewrite (Rsum_permutation _ _ Hp), (Permutation_length Hp).
Qed.

Lemma np_std_permutation (l l' : list R) : Permutation l l' -> np_std l = np_std l'.
Proof.
  intros Hp. unfold np_std. rewrite <- (np_mean_permutation _ _ Hp).
  destruct (np_mean l) as [m | | |]; try reflexivity.
  rewrite (Rsum_permutation _ _ (Permutation_map (fun x => (x - m) * (x - m)) Hp)).
  now rewrite (Permutation_length Hp).
Qed.

Section OrderFacts.
Context {lib : Library}.

Lemma np_percentile_permutation (a a' : list R) (q : R) :
  Permutation a a' -> np_percentile a q = np_percentile a' q.
Proof.
  intros Hp. unfold np_percentile. rewrite <- (np_sort_permutation _ _ Hp).
  destruct a as [|x a], a' as [|x' a']; try reflexivity.
  - now apply Permutation_nil in Hp.
  - symmetry in Hp. now apply Permutation_nil in Hp.
Qed.

End OrderFacts.

Section ExtremeFacts.
Context {lib : Library}.

Lemma historical_var_at_one (r : list R) :
  r <> [] -> outcome (calculate_var r 1 "historical") = Ok (Fin (minimum r)).
Proof.
  intros Hr. rewrite historical_value by (assumption || lra). do 2 f_equal.
  unfold interpolate, virtual_index.
  replace ((INR (length r) - 1) * (100 * (1 - 1) / 100)) with 0 by (field_simplify; lra).
  rewrite (floor_nat_eq 0 0%nat) by (simpl; lra).
  rewrite np_sort_first by assumption. simpl. ring.
Qed.

Lemma historical_var_at_zero (r : list R) :
  r <> [] -> outcome (calculate_var r 0 "historical") = Ok (Fin (maximum r)).
Proof.
  intros Hr.
  assert (Hn : (0 < length r)%nat) by (destruct r; [congruence | simpl; lia]).
  rewrite historical_value by (assumption || lra). do 2 f_equal.
  unfold interpolate, virtual_index.
  replace ((INR (length r) - 1) * (100 * (1 - 0) / 100)) with (INR (length r - 1)).
  - rewrite (floor_nat_eq _ (length r - 1)%nat) by lra.
    rewrite np_sort_last by assumption. ring.
  - rewrite minus_INR by lia. change (INR 1) with 1. field.
Qed.

End ExtremeFacts.

(** X3.  At the ends of the scale the historical estimate of a nonempty series
    is an extreme of the sample: the smallest return at confidence level
    [1], the largest at confidence level [0]. *)
Theorem historical_var_extremes :
  forall (lib : Library) (r : list R),
    r <> [] ->
    outcome (calculate_var r 1 "historical") = Ok (Fin (minimum r)) /\
    outcome (calculate_var r 0 "historical") = Ok (Fin (maximum r)).
Proof.
  intros lib r Hr. split; [now apply historical_var_at_one | now apply historical_var_at_zero].
Qed.

Lemma historical_var_extremes_witness :
  [0.01; -0.02; 0.03] <> [] /\
  outcome (calculate_var (lib := sample_library) [0.01; -0.02; 0.03] 1 "historical") =
  Ok (Fin (minimum [0.01; -0.02; 0.03])) /\
  outcome (calculate_var (lib := sample_library) [0.01; -0.02; 0.03] 0 "historical") =
  Ok (Fin (maximum [0.01; -0.02; 0.03])).
Proof.
  split; [discriminate|].
  apply (historical_var_extremes sample_library [0.01; -0.02; 0.03]). discriminate.
Defined.



(** ** Rescaling the returns *)

Lemma Rleb_affine (a b x y : R) : 0 < a -> Rleb (a * x + b) (a * y + b) = Rleb x y.
Proof.
  intros Ha. destruct (Rleb x y) eqn:E.
  - apply Rleb_true in E. apply Rleb_true. nra.
  - apply Rleb_false in E. apply Rleb_false. nra.
Qed.

Lemma np_sort_affine (a b : R) (l : list R) :
  0 < a ->
  np_sort (map (fun x => a * x + b) l) = map (fun x => a * x + b) (np_sort l).
Proof.
  intros Ha. unfold np_sort. induction l as [|x l IH]; simpl; [reflexivity|].
  rewrite IH. generalize (sort_by Rleb l) as s.
  induction s as [|y s IHs]; simpl; [reflexivity|].
  rewrite Rleb_affine by assumption.
  destruct (Rleb x y); simpl; [reflexivity|]. now rewrite IHs.
Qed.

Lemma nth_map_in_range (f : R -> R) (s : list R) (i : nat) :
  (i < length s)%nat -> nth i (map f s) 0 = f (nth i s 0).
Proof.
  intros Hi. rewrite (nth_indep _ 0 (f 0)) by now rewrite length_map.
  apply map_nth.
Qed.

Lemma interpolate_affine (a b : R) (s : list R) (h : R) :
  s <> [] -> 0 <= h <= INR (length s) - 1 ->
  interpolate (map (fun x => a * x + b) s) h = a * interpolate s h + b.
Proof.
  intros Hs Hh. unfold interpolate.
  pose proof (floor_nat_bound h (proj1 Hh)) as Hf.
  set (i := Z.to_nat (Zfloor h)) in *.
  assert (Hi : (i < length s)%nat) by (apply INR_lt; lra).
  rewrite (nth_map_in_range _ s i Hi).
  destruct (Nat.eq_dec (S i) (length s)) as [Hlast | Hmid].
  - assert (INR (S i) = INR (length s)) by now rewrite Hlast.
    rewrite S_INR in *. replace (h - INR i) with 0 by lra. ring.
  - rewrite (nth_map_in_range _ s (S i)) by lia. ring.
Qed.

Lemma Rsum_affine (a b : R) (l : list R) :
  Rsum (map (fun x => a * x + b) l) = a * Rsum l + b * INR (length l).
Proof.
  unfold Rsum. induction l as [|x l IH].
  - simpl. ring.
  - change (length (x :: l)) with (S (length l)). rewrite S_INR. simpl. rewrite IH. ring.
Qed.



(** ** How many returns lie below the historical estimate *)

Lemma filter_length_above {A : Type} (f : A -> bool) (d : A) (s : list A) :
  forall m, (forall j, (m <= j < length s)%nat -> f (nth j s d) = false) ->
            (length (filter f s) <= m)%nat.
Proof.
  induction s as [|x s IH]; intros m H; simpl; [lia|].
  destruct m as [|m].
  - pose proof (H 0%nat ltac:(simpl; lia)) as H0. simpl in H0. rewrite H0.
    apply (IH 0%nat). intros j Hj. apply (H (S j)). simpl. lia.
  - assert (length (filter f s) <= m)%nat.
    { apply IH. intros j Hj. apply (H (S j)). simpl. lia. }
    destruct (f x); simpl; lia.
Qed.

Lemma filter_length_below {A : Type} (f : A -> bool) (d : A) (s : list A) :
  forall m, (m <= length s)%nat -> (forall j, (j < m)%nat -> f (nth j s d) = true) ->
            (m <= length (filter f s))%nat.
Proof.
  induction s as [|x s IH]; intros m Hm H; simpl in *; [lia|].
  destruct m as [|m]; [lia|].
  pose proof (H 0%nat ltac:(lia)) as H0. simpl in H0. rewrite H0. simpl.
  apply le_n_S, IH; [lia|]. intros j Hj. apply (H (S j)). lia.
Qed.



(** ** The expected shortfall *)

Lemma Rsum_ge_bound (a : list R) (v : R) :
  (forall x, In x a -> v <= x) -> INR (length a) * v <= Rsum a.
Proof.
  induction a as [|x a IH]; intros H.
  - simpl. lra.
  - change (Rsum (x :: a)) with (x + Rsum a).
    change (length (x :: a)) with (S (length a)). rewrite S_INR.
    pose proof (H x (or_introl eq_refl)).
    pose proof (IH (fun y Hy => H y (or_intror Hy))). lra.
Qed.

Lemma mean_ge_bound (a : list R) (v : R) :
  a <> [] -> (forall x, In x a -> v <= x) -> v <= Rsum a / INR (length a).
Proof.
  intros Ha H.
  assert (0 < INR (length a)).
  { apply (lt_INR 0). destruct a; [congruence | simpl; lia]. }
  pose proof (Rsum_ge_bound a v H).
  apply Rmult_le_reg_r with (INR (length a)); [assumption|].
  unfold Rdiv. rewrite Rmult_assoc, Rinv_l by lra. lra.
Qed.

(** Raising the threshold adds to the tail only returns above the old
    threshold. *)
Lemma tail_increment (r : list R) (v1 v2 : R) :
  v2 <= v1 ->
  let t1 := filter (fun x => Rleb x v1) r in
  let t2 := filter (fun x => Rleb x v2) r in
  (length t2 <= length t1)%nat /\
  (INR (length t1) - INR (length t2)) * v2 <= Rsum t1 - Rsum t2.
Proof.
  intros Hv. induction r as [|x r IH]; simpl.
  - split; [lia | simpl; lra].
  - destruct IH as (IHl & IHs).
    destruct (Rleb x v2) eqn:E2.
    + apply Rleb_true in E2. rewrite (proj2 (Rleb_true x v1)) by lra.
      cbn [length]. rewrite !S_INR. unfold Rsum in *. simpl. split; [lia | lra].
    + apply Rleb_false in E2. destruct (Rleb x v1) eqn:E1.
      * cbn [length]. rewrite S_INR. unfold Rsum in *. simpl. split; [lia | nra].
      * split; assumption.
Qed.

Lemma tail_mean_monotone (r : list R) (v1 v2 : R) :
  v2 <= v1 -> filter (fun x => Rleb x v2) r <> [] ->
  Rsum (filter (fun x => Rleb x v2) r) / INR (length (filter (fun x => Rleb x v2) r)) <=
  Rsum (filter (fun x => Rleb x v1) r) / INR (length (filter (fun x => Rleb x v1) r)).
Proof.
  intros Hv Ht2. destruct (tail_increment r v1 v2 Hv) as (Hl & Hs).
  set (t1 := filter (fun x => Rleb x v1) r) in *.
  set (t2 := filter (fun x => Rleb x v2) r) in *.
  assert (Hn2 : 0 < INR (length t2)).
  { apply (lt_INR 0). destruct t2; [congruence | simpl; lia]. }
  assert (Hn12 : INR (length t2) <= INR (length t1)) by now apply le_INR.
  pose proof (Rsum_le_bound t2 v2 (tail_below r v2)) as Hb.
  assert (Hx : Rsum t2 * INR (length t1) <= Rsum t1 * INR (length t2)) by nra.
  replace (Rsum t2 / INR (length t2))
    with (Rsum t2 * INR (length t1) * / (INR (length t1) * INR (length t2))) by (field; lra).
  replace (Rsum t1 / INR (length t1))
    with (Rsum t1 * INR (length t2) * / (INR (length t1) * INR (length t2))) by (field; lra).
  apply Rmult_le_compat_r; [|exact Hx].
  left. apply Rinv_0_lt_compat. nra.
Qed.









(** ** The simulation at its edges *)

Lemma prod_axis0_no_day (n : nat) : prod_axis0 n [] = repeat (Fin 1) n.
Proof. reflexivity. Qed.

Lemma sort_by_repeat {A : Type} (leb : A -> A -> bool) (x : A) (n : nat) :
  leb x x = true -> sort_by leb (repeat x n) = repeat x n.
Proof.
  intros Hx. induction n as [|n IH]; simpl; [reflexivity|].
  rewrite IH. destruct n; simpl; [reflexivity|]. now rewrite Hx.
Qed.

Lemma nth_error_repeat_lt {A : Type} (x : A) (n k : nat) :
  (k < n)%nat -> nth_error (repeat x n) k = Some x.
Proof.
  revert k. induction n as [|n IH]; intros k Hk; [lia|].
  destruct k; simpl; [reflexivity|]. apply IH. lia.
Qed.

(** An array whose every entry is [nan] keeps that shape under the product
    along the days. *)
Lemma fold_prod_nan (rows : list (list float)) (n : nat) (acc : list float) :
  length acc = n -> (forall row, In row rows -> row = repeat NaN n) ->
  rows <> [] ->
  fold_left (fun acc row => map (fun p => fmul (fst p) (snd p)) (combine acc row)) rows acc
  = repeat NaN n.
Proof.
  assert (Hstep : forall acc, length acc = n ->
            map (fun p => fmul (fst p) (snd p)) (combine acc (repeat NaN n)) = repeat NaN n).
  { clear. intros acc. revert n. induction acc as [|a acc IH]; intros n Hn; subst n.
    - reflexivity.
    - simpl. rewrite IH by reflexivity. destruct a; reflexivity. }
  revert acc. induction rows as [|row rows IH]; intros acc Hacc Hrows Hne; [congruence|].
  simpl. rewrite (Hrows row (or_introl eq_refl)), Hstep by assumption.
  destruct rows as [|row' rows]; [reflexivity|].
  apply IH; [apply repeat_length | | discriminate].
  intros r Hr. apply Hrows. now right.
Qed.

(** X11.  Without a path there is nothing to take a percentile of: with
    [simulations = 0] the simulation raises an [IndexError], whatever the
    series, the horizon and the generator. *)
Theorem monte_carlo_var_without_paths :
  forall (shock : nat -> nat -> R) (returns : list R) (days : nat),
    monte_carlo_var shock returns days 0 =
    Raise (IndexError "index 0 is out of bounds for axis 0 with size 0").
Proof. exact monte_carlo_var_no_path. Qed.

(** X12.  With a horizon of [0] days no shock is drawn and every path ends at
    the initial value: the simulated loss is [0] for every series, the empty
    one included, as soon as there is a path. *)
Theorem monte_carlo_var_zero_horizon :
  forall (shock : nat -> nat -> R) (returns : list R) (simulations : nat),
    (0 < simulations)%nat ->
    monte_carlo_var shock returns 0 simulations = Ok (Fin 0).
Proof.
  intros shock returns n Hn. unfold monte_carlo_var. cbn [seq map].
  rewrite prod_axis0_no_day, map_repeat. cbn [fmul].
  unfold np_sort_floats. rewrite sort_by_repeat by (cbn; apply Rleb_true; lra).
  rewrite var_index_div, nth_error_repeat_lt by (apply Nat.div_lt; lia).
  cbn [fsub fopp fadd]. do 2 f_equal. ring.
Qed.

Lemma monte_carlo_var_zero_horizon_witness :
  (0 < 40)%nat /\
  monte_carlo_var (fun d s => INR d - INR s) [0.01; -0.02] 0 40 = Ok (Fin 0).
Proof.
  split; [lia|].
  apply (monte_carlo_var_zero_horizon (fun d s => INR d - INR s) [0.01; -0.02] 40). lia.
Defined.

(** X13.  On an empty series the mean and the standard deviation are [nan],
    and so is the simulated loss, for every positive horizon and number of
    paths: no exception is raised. *)
Theorem monte_carlo_var_empty_series :
  forall (shock : nat -> nat -> R) (days simulations : nat),
    (0 < days)%nat -> (0 < simulations)%nat ->
    monte_carlo_var shock [] days simulations = Ok NaN.
Proof.
  intros shock days n Hd Hn. unfold monte_carlo_var.
  cbn [np_mean np_std fpow fmul fsub fopp fadd].
  rewrite var_index_div. unfold prod_axis0.
  rewrite (fold_prod_nan _ n).
  - rewrite map_repeat. cbn [fmul]. unfold np_sort_floats.
    rewrite sort_by_repeat by reflexivity.
    rewrite nth_error_repeat_lt by (apply Nat.div_lt; lia). reflexivity.
  - apply repeat_length.
  - intros row Hrow. rewrite !map_map in Hrow. apply in_map_iff in Hrow.
    destruct Hrow as (d & <- & _). rewrite map_map. cbn [fexp].
    rewrite (repeat_map_seq NaN n 0). reflexivity.
  - destruct days; [lia | discriminate].
Qed.

Lemma monte_carlo_var_empty_series_witness :
  (0 < 1)%nat /\ (0 < 40)%nat /\
  monte_carlo_var (fun d s => INR d - INR s) [] 1 40 = Ok NaN.
Proof.
  split; [lia|]. split; [lia|].
  apply (monte_carlo_var_empty_series (fun d s => INR d - INR s) 1 40); lia.
Defined.

(** ** The simulated loss *)

Lemma terminal_value_pos (mu sigma : R) (shock : nat -> nat -> R) (days path : nat) :
  0 < terminal_value portfolio_value mu sigma shock days path.
Proof.
  unfold terminal_value, portfolio_value.
  apply Rmult_lt_0_compat; [lra | apply exp_pos].
Qed.

Lemma Rsum_constant {A : Type} (x : R) (l : list A) :
  Rsum (map (fun _ => x) l) = INR (length l) * x.
Proof.
  unfold Rsum. induction l as [|a l IH].
  - simpl. ring.
  - change (length (a :: l)) with (S (length l)). rewrite S_INR. simpl. rewrite IH. ring.
Qed.



(** X15.  On a series without dispersion (standard deviation [0]) the shocks
    have no weight: whatever the generator draws, the simulated loss is
    [portfolio_value - portfolio_value * exp(days * mu)]. *)
Theorem monte_carlo_var_without_dispersion :
  forall (shock : nat -> nat -> R) (returns : list R) (days simulations : nat) (mu : R),
    np_mean returns = Fin mu -> np_std returns = Fin 0 -> (0 < simulations)%nat ->
    monte_carlo_var shock returns days simulations =
    Ok (Fin (portfolio_value - portfolio_value * exp (INR days * mu))).
Proof.
  intros shock returns days n mu Hmu Hsigma Hn.
  rewrite (monte_carlo_var_value shock returns days n mu 0 Hmu Hsigma Hn).
  do 2 f_equal. f_equal.
  set (l := map (terminal_value portfolio_value mu 0 shock days) (seq 0 n)).
  assert (Hin : In (nth (n / 20) (np_sort l) 0) l).
  { apply np_sort_nth_in. unfold l. rewrite length_map, length_seq.
    apply Nat.div_lt; lia. }
  apply in_map_iff in Hin. destruct Hin as (s & <- & _).
  unfold terminal_value. do 2 f_equal.
  rewrite (map_ext (fun d => mu - 0.5 * 0 ^ 2 + 0 * shock d s) (fun _ => mu))
    by (intros d; ring).
  now rewrite Rsum_constant, length_seq.
Qed.

Lemma monte_carlo_var_without_dispersion_witness :
  np_mean [0.01] = Fin 0.01 /\ np_std [0.01] = Fin 0 /\ (0 < 40)%nat /\
  monte_carlo_var (fun d s => INR d - INR s) [0.01] 5 40 =
  Ok (Fin (portfolio_value - portfolio_value * exp (INR 5 * 0.01))).
Proof.
  assert (Hmu : np_mean [0.01] = Fin 0.01).
  { unfold np_mean, Rsum. cbn [length fold_right INR]. f_equal. lra. }
  split; [exact Hmu|]. split; [apply np_std_singleton|]. split; [lia|].
  apply (monte_carlo_var_without_dispersion (fun d s => INR d - INR s) [0.01] 5 40 0.01
           Hmu (np_std_singleton 0.01)). lia.
Defined.

(** X16.  The simulated loss depends on the set of simulated paths, not on
    the order in which they are drawn: renumbering the paths by a
    permutation [sigma] of their indices leaves the result unchanged. *)
Theorem monte_carlo_var_ignores_path_order :
  forall (shock : nat -> nat -> R) (renumber : nat -> nat)
         (returns : list R) (days simulations : nat),
    returns <> [] -> (0 < simulations)%nat ->
    Permutation (map renumber (seq 0 simulations)) (seq 0 simulations) ->
    monte_carlo_var (fun d s => shock d (renumber s)) returns days simulations =
    monte_carlo_var shock returns days simulations.
Proof.
  intros shock renumber returns days n Hr Hn Hperm.
  assert (Hmu : exists mu, np_mean returns = Fin mu)
    by (rewrite np_mean_nonempty by assumption; eauto).
  destruct Hmu as (mu & Hmu).
  assert (Hsigma : exists sigma, np_std returns = Fin sigma)
    by (unfold np_std; rewrite Hmu; eauto).
  destruct Hsigma as (sigma & Hsigma).
  rewrite !(monte_carlo_var_value _ returns days n mu sigma Hmu Hsigma Hn).
  do 4 f_equal. apply np_sort_permutation.
  rewrite (map_ext
             (terminal_value portfolio_value mu sigma (fun d s => shock d (renumber s)) days)
             (fun s => terminal_value portfolio_value mu sigma shock days (renumber s)))
    by reflexivity.
  rewrite <- (map_map renumber (terminal_value portfolio_value mu sigma shock days)).
  now apply Permutation_map.
Qed.

Lemma monte_carlo_var_ignores_path_order_witness :
  [0.01; -0.02] <> [] /\ (0 < 2)%nat /\
  Permutation (map (fun s => (1 - s)%nat) (seq 0 2)) (seq 0 2) /\
  monte_carlo_var (fun d s => INR d - INR (1 - s)) [0.01; -0.02] 5 2 =
  monte_carlo_var (fun d s => INR d - INR s) [0.01; -0.02] 5 2.
Proof.
  assert (Hp : Permutation (map (fun s => (1 - s)%nat) (seq 0 2)) (seq 0 2))
    by apply perm_swap.
  split; [discriminate|]. split; [lia|]. split; [exact Hp|].
  apply (monte_carlo_var_ignores_path_order (fun d s => INR d - INR s)
           (fun s => (1 - s)%nat) [0.01; -0.02] 5 2); [discriminate | lia | exact Hp].
Defined.

(** ** From prices to returns *)

Lemma combine_shift {A : Type} (y : list A) (d : A) :
  combine y (d :: removelast y) = combine y (d :: y).
Proof.
  revert d. induction y as [|a y IH]; intros d; [reflexivity|].
  destruct y as [|b y]; [reflexivity|].
  change (removelast (a :: b :: y)) with (a :: removelast (b :: y)).
  cbn [combine]. f_equal. apply IH.
Qed.

Lemma pct_change_from (previous : R) (prices : list R) :
  previous <> 0 -> Forall (fun p => p <> 0) prices ->
  map (fun p => fsub (fdiv (fst p) (snd p)) (Fin 1))
      (combine (map Fin prices) (Fin previous :: map Fin prices))
  = map Fin (returns_from previous prices).
Proof.
  intros Hprev Hall. revert previous Hprev.
  induction Hall as [|p prices Hp Hall IH]; intros previous Hprev; [reflexivity|].
  cbn [map combine fst snd fdiv returns_from].
  rewrite (proj2 (Reqb_false previous 0) Hprev). cbn [fsub fopp fadd].
  f_equal. now apply IH.
Qed.

Lemma pct_change_value (p : R) (prices : list R) :
  Forall (fun p => p <> 0) (p :: prices) ->
  pct_change (p :: prices) = NaN :: map Fin (returns_from p prices).
Proof.
  intros Hall. inversion Hall as [|? ? Hp Hrest]; subst.
  unfold pct_change, shift. cbn [map]. rewrite combine_shift.
  cbn [combine map fst snd fdiv fsub fopp fadd]. f_equal.
  now apply pct_change_from.
Qed.

Lemma dropna_Fin (l : list R) : dropna (map Fin l) = map Fin l.
Proof.
  unfold dropna. induction l as [|x l IH]; simpl; [reflexivity|]. now rewrite IH.
Qed.

Lemma returns_from_length (previous : R) (prices : list R) :
  length (returns_from previous prices) = length prices.
Proof.
  revert previous. induction prices as [|p prices IH]; intros previous; simpl;
    [reflexivity | now rewrite IH].
Qed.

Lemma fetch_returns_value (prices : list R) :
  Forall (fun p => p <> 0) prices ->
  dropna (pct_change prices) = map Fin (simple_returns prices).
Proof.
  intros Hall. destruct prices as [|p prices]; [reflexivity|].
  rewrite pct_change_value by assumption.
  unfold dropna. cbn [filter isnan negb]. apply dropna_Fin.
Qed.

(** X17.  From at least three prices, none of them zero, [fetch_returns]
    gives the series of the simple returns, one fewer than the prices and
    all of them finite: entry [i] is [price (i + 1) / price i - 1]. *)
Theorem fetch_returns_simple_returns :
  forall adj_close : list R,
    Forall (fun p => p <> 0) adj_close -> (3 <= length adj_close)%nat ->
    exists returns : list R,
      fetch_returns adj_close = Series (map Fin returns) /\
      length returns = (length adj_close - 1)%nat /\
      forall i, (i < length returns)%nat ->
                nth i returns 0 = nth (S i) adj_close 0 / nth i adj_close 0 - 1.
Proof.
  intros prices Hall Hlen. exists (simple_returns prices).
  assert (Hl : length (simple_returns prices) = (length prices - 1)%nat).
  { destruct prices as [|p prices]; [reflexivity|]. simpl.
    rewrite returns_from_length. lia. }
  split; [|split; [exact Hl|]].
  - unfold fetch_returns. rewrite fetch_returns_value by assumption.
    destruct (simple_returns prices) as [|a [|b l]] eqn:E; simpl in Hl; try lia.
    reflexivity.
  - clear Hall Hlen Hl. destruct prices as [|p prices]; [simpl; lia|].
    cbn [simple_returns]. revert p.
    induction prices as [|q prices IH]; intros p i Hi; [simpl in Hi; lia|].
    destruct i as [|i]; [reflexivity|].
    cbn [returns_from length] in *. cbn [nth]. apply IH. lia.
Qed.

Lemma fetch_returns_simple_returns_witness :
  Forall (fun p => p <> 0) [100; 110; 99] /\ (3 <= length [100; 110; 99]%R)%nat /\
  exists returns : list R,
    fetch_returns [100; 110; 99] = Series (map Fin returns) /\
    length returns = (length [100; 110; 99]%R - 1)%nat /\
    forall i, (i < length returns)%nat ->
              nth i returns 0 = nth (S i) [100; 110; 99] 0 / nth i [100; 110; 99] 0 - 1.
Proof.
  assert (Hall : Forall (fun p => p <> 0) [100; 110; 99])
    by (repeat constructor; lra).
  split; [exact Hall|]. split; [simpl; lia|].
  apply (fetch_returns_simple_returns [100; 110; 99] Hall). simpl; lia.
Defined.

(** X18.  The returns and the first price give the prices back: when no price
    is zero, price [k] is the first price times the product of
    [1 + return] over the first [k] returns that [fetch_returns] computes. *)
Theorem prices_from_returns :
  forall (adj_close : list R) (k : nat),
    Forall (fun p => p <> 0) adj_close -> (k < length adj_close)%nat ->
    exists returns : list R,
      dropna (pct_change adj_close) = map Fin returns /\
      nth k adj_close 0 =
      nth 0 adj_close 0 * Rprod (map (fun r => 1 + r) (firstn k returns)).
Proof.
  intros prices k Hall Hk. exists (simple_returns prices).
  split; [now apply fetch_returns_value|].
  destruct prices as [|p prices]; [simpl in Hk; lia|].
  cbn [simple_returns nth]. inversion Hall as [|? ? Hp Hrest]; subst. clear Hall.
  revert p k Hp Hk. induction Hrest as [|q prices Hq Hrest IH]; intros p k Hp Hk.
  - simpl in Hk. assert (k = 0%nat) as -> by lia. unfold Rprod. simpl. ring.
  - destruct k as [|k]; [unfold Rprod; simpl; ring|].
    cbn [returns_from firstn map nth]. unfold Rprod in *. cbn [fold_right].
    change (nth k (q :: prices) 0) with (nth k (q :: prices) 0).
    rewrite (IH q k Hq) by (simpl in *; lia). cbn [nth]. field. exact Hp.
Qed.

Lemma prices_from_returns_witness :
  Forall (fun p => p <> 0) [100; 110; 99] /\ (2 < length [100; 110; 99]%R)%nat /\
  exists returns : list R,
    dropna (pct_change [100; 110; 99]) = map Fin returns /\
    nth 2 [100; 110; 99] 0 =
    nth 0 [100; 110; 99] 0 * Rprod (map (fun r => 1 + r) (firstn 2 returns)).
Proof.
  assert (Hall : Forall (fun p => p <> 0) [100; 110; 99])
    by (repeat constructor; lra).
  split; [exact Hall|]. split; [simpl; lia|].
  apply (prices_from_returns [100; 110; 99] 2 Hall). simpl; lia.
Defined.

Lemma returns_from_above_minus_one (previous : R) (prices : list R) :
  0 < previous -> Forall (fun p => 0 < p) prices ->
  Forall (fun r => -1 < r) (returns_from previous prices).
Proof.
  intros Hprev Hall. revert previous Hprev.
  induction Hall as [|p prices Hp Hall IH]; intros previous Hprev; simpl;
    constructor.
  - assert (0 < p / previous) by now apply Rdiv_lt_0_compat. lra.
  - now apply IH.
Qed.

(** X19.  A column too short to give two returns does not give a series of
    returns: without a price or with one price [fetch_returns] gives the
    empty series, and with two prices the single return is squeezed into a
    scalar. *)
Theorem fetch_returns_short_column :
  forall adj_close : list R,
    ((length adj_close <= 1)%nat -> fetch_returns adj_close = Series []) /\
    (forall p q, adj_close = [p; q] -> p <> 0 ->
                 fetch_returns adj_close = Scalar (Fin (q / p - 1))).
Proof.
  intros prices. split.
  - intros Hlen. destruct prices as [|p [|q prices]]; simpl in Hlen; try lia; reflexivity.
  - intros p q -> Hp. unfold fetch_returns, pct_change, shift.
    cbn [map removelast combine fst snd fdiv].
    rewrite (proj2 (Reqb_false p 0) Hp). reflexivity.
Qed.

Lemma fetch_returns_short_column_witness :
  (length [100]%R <= 1)%nat /\ fetch_returns [100] = Series [] /\
  100 <> 0 /\ fetch_returns [100; 110] = Scalar (Fin (110 / 100 - 1)).
Proof.
  split; [simpl; lia|]. split.
  - apply (proj1 (fetch_returns_short_column [100])). simpl; lia.
  - split; [lra|].
    apply (proj2 (fetch_returns_short_column [100; 110]) 100 110 eq_refl). lra.
Defined.



(** ** The normal estimate of a series without dispersion *)

Lemma Rsum_repeat (x : R) (n : nat) : Rsum (repeat x n) = INR n * x.
Proof.
  unfold Rsum. induction n as [|n IH].
  - simpl. ring.
  - rewrite S_INR. simpl. rewrite IH. ring.
Qed.

Lemma np_std_constant (x : R) (n : nat) : (0 < n)%nat -> np_std (repeat x n) = Fin 0.
Proof.
  intros Hn. assert (HN : 0 < INR n) by (apply (lt_INR 0); lia).
  unfold np_std. rewrite np_mean_nonempty by (destruct n; [lia | discriminate]).
  rewrite Rsum_repeat, repeat_length. f_equal.
  replace (INR n * x / INR n) with x by (field; lra).
  rewrite map_repeat, Rsum_repeat.
  replace (INR n * ((x - x) * (x - x)) / INR n) with 0 by (field; lra).
  apply sqrt_0.
Qed.



(** ** Kupiec's test at the ends of the scale *)

Lemma likelihood_end_cases (n f : nat) (p : R) :
  (0 < n)%nat -> (f <= n)%nat -> p = 0 \/ p = 1 ->
  (1 - p) ^ (n - f) * p ^ f = 0 \/
  (1 - p) ^ (n - f) * p ^ f = (1 - INR f / INR n) ^ (n - f) * (INR f / INR n) ^ f.
Proof.
  intros Hn Hf [-> | ->].
  - destruct f as [|f].
    + right. rewrite Nat.sub_0_r. cbn [INR pow]. unfold Rdiv. rewrite Rmult_0_l. reflexivity.
    + left. rewrite pow_i by lia. ring.
  - destruct (Nat.eq_dec f n) as [-> | Hfn].
    + right. rewrite Nat.sub_diag. cbn [pow].
      assert (0 < INR n) by (apply (lt_INR 0); lia).
      unfold Rdiv. rewrite Rinv_r by lra. reflexivity.
    + left. replace (1 - 1) with 0 by ring. rewrite pow_i by lia. ring.
Qed.


